(** * ManagedRaster.h: block-cached raster access and flow-direction iterators

    A shallow embedding of [src/natcap/invest/managed_raster/ManagedRaster.h].

    Conventions of the embedding.
    - C++ [int] and [long] values are integers of [Z].  Signed overflow is
      undefined in C++, so nothing is wrapped; [/] and [%] are the truncating
      [Z.quot] and [Z.rem], [&], [>>] and [<<] are [Z.land], [Z.shiftr] and
      [Z.shiftl] (two's complement, as on [int]).  The block coordinates,
      the block index and the buffer index that [get] and [set] compute are
      [int]s: [as_int] leaves them undefined outside the range of [int].
      The offsets and sizes of a block's window stay below the size of the
      raster plus one block, and are kept as integers.
    - [double] and [float] values are IEEE 754 numbers ([spec_float]) with
      the binary64 and binary32 parameters.
    - A [double*] block buffer is a [list double]; the pointer is owned by one
      cache entry, so the entry carries the buffer itself.
    - An operation whose C++ behaviour is undefined (an index outside an
      array, a conversion the target type cannot hold, a division by zero, a
      call after [close]) yields [None].
    - The raster library (GDAL) is outside the repository: a dataset is an
      in-memory raster whose block reads and writes succeed. *)

From Stdlib Require Import ZArith Lia Bool String.
From Stdlib Require Import Floats.SpecFloat.
From stdpp Require Import base option numbers list gmap.

Local Open Scope Z_scope.

(** ** Floating point *)

Module Float.

(** C++ [double]: binary64. *)
Definition double : Type := spec_float.
(** C++ [float]: binary32. *)
Definition float : Type := spec_float.

Definition INT_MIN : Z := - 2 ^ 31.
Definition INT_MAX : Z := 2 ^ 31 - 1.

(** [static_cast<double>(n)] for an integer [n]. *)
Definition double_of_int (n : Z) : double := binary_normalize 53 1024 n 0 false.

(** [static_cast<float>(n)], also the implicit conversion of an integer
    argument to a [float] parameter. *)
Definition float_of_int (n : Z) : float := binary_normalize 24 128 n 0 false.

(** Conversion of a [double] to [int]: the fractional part is discarded;
    the behaviour is undefined when the truncated value does not fit, and
    for infinities and NaN. *)
Definition int_of_double (d : double) : option Z :=
  match d with
  | S754_zero _ => Some 0
  | S754_finite s m e =>
      let mag := if 0 <=? e then Z.pos m * 2 ^ e else Z.pos m `quot` 2 ^ (- e) in
      let z := if s then - mag else mag in
      if (INT_MIN <=? z) && (z <=? INT_MAX) then Some z else None
  | S754_infinity _ | S754_nan => None
  end.

(** [if (f)] on a float: true unless [f] compares equal to zero. *)
Definition nonzero (f : float) : bool :=
  match f with
  | S754_zero _ => false
  | _ => true
  end.

(** [a / b] on [float]; dividing by zero is undefined in C++. *)
Definition div (a b : float) : option float :=
  if nonzero b then Some (SFdiv 24 128 a b) else None.

#[export] Instance spec_float_eq_dec : EqDecision spec_float.
Proof. solve_decision. Defined.

End Float.
Import Float.

(** ** Direction tables *)

(** Neighbor numbering
<<
      3 2 1
      4 x 0
      5 6 7
>> *)
Definition ROW_OFFSETS : list Z := [0; -1; -1; -1; 0; 1; 1; 1].
Definition COL_OFFSETS : list Z := [1; 1; 0; -1; -1; -1; 0; 1].
Definition FLOW_DIR_REVERSE_DIRECTION : list Z := [4; 5; 6; 7; 0; 1; 2; 3].

(** If a pixel has a neighbor in position [i], the pixel is that neighbor's
    neighbor in position [INFLOW_OFFSETS[i]]. *)
Definition INFLOW_OFFSETS : list Z := [4; 5; 6; 7; 0; 1; 2; 3].

Definition MANAGED_RASTER_N_BLOCKS : Z := 2 ^ 6.

(** [a[i]] on a C array: undefined outside the array. *)
Definition at_index {A} (a : list A) (i : Z) : option A :=
  if 0 <=? i then a !! Z.to_nat i else None.

(** [(v >> (4 * d)) & 0xF]. *)
Definition nibble (v d : Z) : Z := Z.land (Z.shiftr v (4 * d)) 15.

(** C++ [a / b] and [a % b] on integers: truncating, undefined for [b = 0]. *)
Definition cdiv (a b : Z) : option Z := if b =? 0 then None else Some (a `quot` b).
Definition crem (a b : Z) : option Z := if b =? 0 then None else Some (a `rem` b).

(** A value held in an [int] variable.  Outside the range of [int] the
    value is the result of signed arithmetic that overflows, or of a
    narrowing from [long] that [int] cannot hold: the embedding leaves both
    undefined. *)
Definition as_int (z : Z) : option Z :=
  if (INT_MIN <=? z) && (z <=? INT_MAX) then Some z else None.

(** [int n = log2(x)] for an integer [x]: the logarithm of a value that is
    not positive is infinite or NaN, and converting it to [int] is
    undefined. *)
Definition log2_int (x : Z) : option Z := if 0 <? x then Some (Z.log2 x) else None.

(** ** The raster library (external)

    A raster file is a grid of pixels per band.  A windowed read fills a
    buffer of [xsize * ysize] doubles row by row; a windowed write stores
    such a buffer back. *)
Module GDAL.

Inductive GDALAccess := GA_ReadOnly | GA_Update.

Record GDALRasterBand := {
  nBlockXSize : Z;
  nBlockYSize : Z;
  NoDataValue : option double;
  pixels : Z -> Z -> double   (* the pixel at column [x], row [y] *)
}.

Record GDALDataset := {
  eAccess : GDALAccess;
  nRasterXSize : Z;
  nRasterYSize : Z;
  papoBands : list GDALRasterBand;
  adfGeoTransform : list double
}.

(** What a path names on disk: a dataset not yet opened. *)
Record RasterFile := {
  file_xsize : Z;
  file_ysize : Z;
  file_bands : list GDALRasterBand;
  file_geotransform : list double
}.

Definition FileSystem : Type := string -> option RasterFile.

Definition GDALOpen (fs : FileSystem) (path : string) (access : GDALAccess)
  : option GDALDataset :=
  f ← fs path;
  Some {| eAccess := access;
          nRasterXSize := file_xsize f;
          nRasterYSize := file_ysize f;
          papoBands := file_bands f;
          adfGeoTransform := file_geotransform f |}.

Definition GetRasterCount (ds : GDALDataset) : Z := Z.of_nat (length (papoBands ds)).

(** Bands are numbered from 1. *)
Definition GetRasterBand (ds : GDALDataset) (band_id : Z) : option GDALRasterBand :=
  at_index (papoBands ds) (band_id - 1).

Definition GetBlockSize (b : GDALRasterBand) : Z * Z := (nBlockXSize b, nBlockYSize b).

(** The stored value and whether the band has one; a band without nodata
    reports the library's default of -1e10. *)
Definition GetNoDataValue (b : GDALRasterBand) : double * bool :=
  match NoDataValue b with
  | Some v => (v, true)
  | None => (double_of_int (-10000000000), false)
  end.

(** The part of block [(block_xi, block_yi)] that lies inside the raster. *)
Definition GetActualBlockSize (ds : GDALDataset) (b : GDALRasterBand)
    (block_xi block_yi : Z) : Z * Z :=
  (Z.min (nBlockXSize b) (nRasterXSize ds - block_xi * nBlockXSize b),
   Z.min (nBlockYSize b) (nRasterYSize ds - block_yi * nBlockYSize b)).

(** [RasterIO(GF_Read, xoff, yoff, xsize, ysize, buf, xsize, ysize, GDT_Float64, 0, 0)]. *)
Definition RasterIO_Read (b : GDALRasterBand) (xoff yoff xsize ysize : Z) : list double :=
  (fun n => pixels b (xoff + n `mod` xsize) (yoff + n `div` xsize)) <$> seqZ 0 (xsize * ysize).

(** [RasterIO(GF_Write, xoff, yoff, xsize, ysize, buf, xsize, ysize, GDT_Float64, 0, 0)]. *)
Definition RasterIO_Write (b : GDALRasterBand) (xoff yoff xsize ysize : Z)
    (buf : list double) : GDALRasterBand :=
  {| nBlockXSize := nBlockXSize b;
     nBlockYSize := nBlockYSize b;
     NoDataValue := NoDataValue b;
     pixels := fun x y =>
       if (xoff <=? x) && (x <? xoff + xsize) && (yoff <=? y) && (y <? yoff + ysize)
       then default (pixels b x y) (buf !! Z.to_nat ((y - yoff) * xsize + (x - xoff)))
       else pixels b x y |}.

End GDAL.
Import GDAL.

(** ** LRUCache.h *)
Module LRUCache.

(** A [double*] block buffer. *)
Definition Buffer : Type := list double.

(** Modelled from the spec: [LRUCache.h] is not among the sources.  A
    fixed-capacity map from block index to buffer, kept in order of last
    use, the most recent entry first. *)
Record t := {
  capacity : nat;
  items : list (Z * Buffer)
}.

(** Modelled from the spec: [LRUCache(cache_size)], an empty map of that
    capacity. *)
Definition empty (cache_size : Z) : t :=
  {| capacity := Z.to_nat cache_size; items := [] |}.

(** Modelled from the spec: what [delete] leaves of a cache, no entry. *)
Definition deleted : t := {| capacity := 0; items := [] |}.

(** Modelled from the spec: the buffer a key maps to. *)
Fixpoint assoc (k : Z) (l : list (Z * Buffer)) : option Buffer :=
  match l with
  | [] => None
  | (k', b) :: l' => if decide (k' = k) then Some b else assoc k l'
  end.

(** Modelled from the spec: the entries left when a key is taken out. *)
Fixpoint remove (k : Z) (l : list (Z * Buffer)) : list (Z * Buffer) :=
  match l with
  | [] => []
  | (k', b) :: l' => if decide (k' = k) then remove k l' else (k', b) :: remove k l'
  end.

(** Modelled from the spec: the keys met by forward iteration. *)
Definition keys (c : t) : list Z := (items c).*1.

(** Modelled from the spec: [exists(k)] does not touch recency. *)
Definition exist (k : Z) (c : t) : bool := bool_decide (k ∈ keys c).

(** Modelled from the spec: [get(k)] hands out the resident buffer and makes
    [k] the most recent entry; it is undefined when [k] is absent. *)
Definition get (k : Z) (c : t) : option (Buffer * t) :=
  b ← assoc k (items c);
  Some (b, {| capacity := capacity c; items := (k, b) :: remove k (items c) |}).

(** Modelled from the spec: a store through the handle that [get] returned
    changes the buffer of [k] in place. *)
Definition store_entry (k : Z) (b : Buffer) (e : Z * Buffer) : Z * Buffer :=
  if decide (e.1 = k) then (k, b) else e.

(** Modelled from the spec: the cache after such a store. *)
Definition store (k : Z) (b : Buffer) (c : t) : t :=
  {| capacity := capacity c; items := store_entry k b <$> items c |}.

(** Modelled from the spec: [put(k, buf)] inserts; if the map was at capacity
    prior to insertion, the least recently used entry is removed and
    returned, otherwise nothing is; [k] becomes most recent. *)
Definition put (k : Z) (b : Buffer) (c : t) : t * list (Z * Buffer) :=
  let old := items c in
  let full := bool_decide (capacity c ≤ length old)%nat in
  let evicted := if full then option_list (last old) else [] in
  let kept := if full then removelast old else old in
  ({| capacity := capacity c; items := (k, b) :: remove k kept |}, evicted).

End LRUCache.

(** ** class ManagedRaster *)

Inductive exception := invalid_argument (what : string).

(** How a constructor call ends: with an instance, with an exception thrown
    (no instance exists), or in undefined behaviour. *)
Inductive construction (A : Type) :=
  | Constructed (a : A)
  | Thrown (e : exception)
  | Undefined.
Arguments Constructed {A} a.
Arguments Thrown {A} e.
Arguments Undefined {A}.

Module ManagedRaster.

Record t := {
  lru_cache : LRUCache.t;
  dirty_blocks : gset Z;
  actualBlockWidths : list Z;
  block_xsize : Z;
  block_ysize : Z;
  block_xmod : Z;
  block_ymod : Z;
  block_xbits : Z;
  block_ybits : Z;
  raster_x_size : Z;
  raster_y_size : Z;
  block_nx : Z;
  block_ny : Z;
  raster_path : string;
  band_id : Z;
  dataset : GDALDataset;
  band : GDALRasterBand;
  write_mode : bool;
  closed : bool;
  nodata : double;
  geotransform : list double;
  hasNodata : bool
}.

(** Field assignments. *)
Definition with_cache (c : LRUCache.t) (s : t) : t :=
  {| lru_cache := c; dirty_blocks := dirty_blocks s;
     actualBlockWidths := actualBlockWidths s;
     block_xsize := block_xsize s; block_ysize := block_ysize s;
     block_xmod := block_xmod s; block_ymod := block_ymod s;
     block_xbits := block_xbits s; block_ybits := block_ybits s;
     raster_x_size := raster_x_size s; raster_y_size := raster_y_size s;
     block_nx := block_nx s; block_ny := block_ny s;
     raster_path := raster_path s; band_id := band_id s;
     dataset := dataset s; band := band s;
     write_mode := write_mode s; closed := closed s;
     nodata := nodata s; geotransform := geotransform s; hasNodata := hasNodata s |}.

Definition with_dirty (d : gset Z) (s : t) : t :=
  {| lru_cache := lru_cache s; dirty_blocks := d;
     actualBlockWidths := actualBlockWidths s;
     block_xsize := block_xsize s; block_ysize := block_ysize s;
     block_xmod := block_xmod s; block_ymod := block_ymod s;
     block_xbits := block_xbits s; block_ybits := block_ybits s;
     raster_x_size := raster_x_size s; raster_y_size := raster_y_size s;
     block_nx := block_nx s; block_ny := block_ny s;
     raster_path := raster_path s; band_id := band_id s;
     dataset := dataset s; band := band s;
     write_mode := write_mode s; closed := closed s;
     nodata := nodata s; geotransform := geotransform s; hasNodata := hasNodata s |}.

Definition with_band (b : GDALRasterBand) (s : t) : t :=
  {| lru_cache := lru_cache s; dirty_blocks := dirty_blocks s;
     actualBlockWidths := actualBlockWidths s;
     block_xsize := block_xsize s; block_ysize := block_ysize s;
     block_xmod := block_xmod s; block_ymod := block_ymod s;
     block_xbits := block_xbits s; block_ybits := block_ybits s;
     raster_x_size := raster_x_size s; raster_y_size := raster_y_size s;
     block_nx := block_nx s; block_ny := block_ny s;
     raster_path := raster_path s; band_id := band_id s;
     dataset := dataset s; band := b;
     write_mode := write_mode s; closed := closed s;
     nodata := nodata s; geotransform := geotransform s; hasNodata := hasNodata s |}.

Definition with_closed (c : bool) (s : t) : t :=
  {| lru_cache := lru_cache s; dirty_blocks := dirty_blocks s;
     actualBlockWidths := actualBlockWidths s;
     block_xsize := block_xsize s; block_ysize := block_ysize s;
     block_xmod := block_xmod s; block_ymod := block_ymod s;
     block_xbits := block_xbits s; block_ybits := block_ybits s;
     raster_x_size := raster_x_size s; raster_y_size := raster_y_size s;
     block_nx := block_nx s; block_ny := block_ny s;
     raster_path := raster_path s; band_id := band_id s;
     dataset := dataset s; band := band s;
     write_mode := write_mode s; closed := c;
     nodata := nodata s; geotransform := geotransform s; hasNodata := hasNodata s |}.

Definition with_widths (w : list Z) (s : t) : t :=
  {| lru_cache := lru_cache s; dirty_blocks := dirty_blocks s;
     actualBlockWidths := w;
     block_xsize := block_xsize s; block_ysize := block_ysize s;
     block_xmod := block_xmod s; block_ymod := block_ymod s;
     block_xbits := block_xbits s; block_ybits := block_ybits s;
     raster_x_size := raster_x_size s; raster_y_size := raster_y_size s;
     block_nx := block_nx s; block_ny := block_ny s;
     raster_path := raster_path s; band_id := band_id s;
     dataset := dataset s; band := band s;
     write_mode := write_mode s; closed := closed s;
     nodata := nodata s; geotransform := geotransform s; hasNodata := hasNodata s |}.

(** The two nested loops that fill [actualBlockWidths]: entry
    [block_yi * block_nx + block_xi] is written in increasing order. *)
Definition fill_actualBlockWidths (ds : GDALDataset) (b : GDALRasterBand)
    (block_nx block_ny : Z) : list Z :=
  block_yi ← seqZ 0 block_ny;
  block_xi ← seqZ 0 block_nx;
  [(GetActualBlockSize ds b block_xi block_yi).1].

(** [ManagedRaster(char* raster_path, int band_id, bool write_mode)]. *)
Definition new (fs : FileSystem) (raster_path : string) (band_id : Z)
    (write_mode : bool) : construction t :=
  match GDALOpen fs raster_path GA_Update with
  | None => Undefined
  | Some dataset =>
    let raster_x_size := nRasterXSize dataset in
    let raster_y_size := nRasterYSize dataset in
    if (band_id <? 1) || (GetRasterCount dataset <? band_id) then
      Thrown (invalid_argument
        "Error: band ID is not a valid band number. This error is happening in the ManagedRaster.h extension.")
    else
    match GetRasterBand dataset band_id with
    | None => Undefined
    | Some band =>
      let '(block_xsize, block_ysize) := GetBlockSize band in
      let block_xmod := block_xsize - 1 in
      let block_ymod := block_ysize - 1 in
      let '(nodata, hasNodata) := GetNoDataValue band in
      let geotransform := adfGeoTransform dataset in
      if negb (Z.land block_xsize (block_xsize - 1) =? 0)
         || negb (Z.land block_ysize (block_ysize - 1) =? 0) then
        Thrown (invalid_argument
          "Error: Block size is not a power of two. This error is happening in the ManagedRaster.h extension.")
      else
      match log2_int block_xsize, log2_int block_ysize,
            cdiv (raster_x_size + block_xsize - 1) block_xsize,
            cdiv (raster_y_size + block_ysize - 1) block_ysize with
      | Some block_xbits, Some block_ybits, Some block_nx, Some block_ny =>
        Constructed
          {| lru_cache := LRUCache.empty MANAGED_RASTER_N_BLOCKS;
             dirty_blocks := ∅;
             actualBlockWidths := fill_actualBlockWidths dataset band block_nx block_ny;
             block_xsize := block_xsize; block_ysize := block_ysize;
             block_xmod := block_xmod; block_ymod := block_ymod;
             block_xbits := block_xbits; block_ybits := block_ybits;
             raster_x_size := raster_x_size; raster_y_size := raster_y_size;
             block_nx := block_nx; block_ny := block_ny;
             raster_path := raster_path; band_id := band_id;
             dataset := dataset; band := band;
             write_mode := write_mode; closed := false;
             nodata := nodata; geotransform := geotransform; hasNodata := hasNodata |}
      | _, _, _, _ => Undefined
      end
    end
  end.

(** The window of a block: offsets by shifting, sizes clipped at the right
    and bottom edges.  [_load_block] computes it for the block it loads and
    again for a block it writes back, [close] for each block it writes. *)
Definition block_window (s : t) (block_index : Z) : option (Z * Z * Z * Z) :=
  block_xi ← crem block_index (block_nx s);
  block_yi ← cdiv block_index (block_nx s);
  let xoff := block_xi ≪ block_xbits s in
  let yoff := block_yi ≪ block_ybits s in
  let win_xsize := block_xsize s in
  let win_ysize := block_ysize s in
  let win_xsize :=
    if raster_x_size s <? xoff + win_xsize
    then win_xsize - (xoff + win_xsize - raster_x_size s) else win_xsize in
  let win_ysize :=
    if raster_y_size s <? yoff + win_ysize
    then win_ysize - (yoff + win_ysize - raster_y_size s) else win_ysize in
  Some (xoff, yoff, win_xsize, win_ysize).

(** Writing one block back: [band->RasterIO(GF_Write, ...)] on its window. *)
Definition write_block (s : t) (block_index : Z) (double_buffer : LRUCache.Buffer)
  : option t :=
  '(xoff, yoff, win_xsize, win_ysize) ← block_window s block_index;
  Some (with_band (RasterIO_Write (band s) xoff yoff win_xsize win_ysize double_buffer) s).

(** The [while (not removed_value_list.empty())] loop of [_load_block]. *)
Fixpoint drain_removed (s : t) (removed_value_list : list (Z * LRUCache.Buffer))
  : option t :=
  match removed_value_list with
  | [] => Some s
  | (block_index, double_buffer) :: rest =>
    s ← (if write_mode s then
           if bool_decide (block_index ∈ dirty_blocks s) then
             write_block (with_dirty (dirty_blocks s ∖ {[block_index]}) s)
                         block_index double_buffer
           else Some s
         else Some s);
    drain_removed s rest
  end.

Definition _load_block (s : t) (block_index : Z) : option t :=
  '(xoff, yoff, win_xsize, win_ysize) ← block_window s block_index;
  let pafScanline := RasterIO_Read (band s) xoff yoff win_xsize win_ysize in
  let '(cache, removed_value_list) := LRUCache.put block_index pafScanline (lru_cache s) in
  drain_removed (with_cache cache s) removed_value_list.

(** [void set(long xi, long yi, double value)].  [block_xi], [block_yi],
    [block_index] and [idx] are [int]s: the quotients and the buffer index
    are computed on [long] and narrowed, the product and the sum of the
    block index are computed on [int].  [close] documents that any later
    call is undefined: the buffers are released. *)
Definition set (s : t) (xi yi : Z) (value : double) : option t :=
  if closed s then None else
  block_xi ← (cdiv xi (block_xsize s) ≫= as_int);
  block_yi ← (cdiv yi (block_ysize s) ≫= as_int);
  block_index ← (as_int (block_yi * block_nx s) ≫= fun rows => as_int (rows + block_xi));
  s ← (if LRUCache.exist block_index (lru_cache s) then Some s
       else _load_block s block_index);
  width ← at_index (actualBlockWidths s) block_index;
  idx ← as_int (Z.land yi (block_ymod s) * width + Z.land xi (block_xmod s));
  '(block, cache) ← LRUCache.get block_index (lru_cache s);
  _ ← at_index block idx;
  let cache := LRUCache.store block_index (<[Z.to_nat idx := value]> block) cache in
  let s := with_cache cache s in
  Some (if write_mode s
        then if bool_decide (block_index ∈ dirty_blocks s) then s
             else with_dirty ({[block_index]} ∪ dirty_blocks s) s
        else s).

(** [double get(long xi, long yi)]: the value and the raster afterwards.
    The [int]s are those of [set]. *)
Definition get (s : t) (xi yi : Z) : option (t * double) :=
  if closed s then None else
  block_xi ← (cdiv xi (block_xsize s) ≫= as_int);
  block_yi ← (cdiv yi (block_ysize s) ≫= as_int);
  block_index ← (as_int (block_yi * block_nx s) ≫= fun rows => as_int (rows + block_xi));
  s ← (if LRUCache.exist block_index (lru_cache s) then Some s
       else _load_block s block_index);
  '(block, cache) ← LRUCache.get block_index (lru_cache s);
  width ← at_index (actualBlockWidths s) block_index;
  idx ← as_int (Z.land yi (block_ymod s) * width + Z.land xi (block_xmod s));
  value ← at_index block idx;
  Some (with_cache cache s, value).

(** The write-mode loop of [close] over the cache entries. *)
Fixpoint close_entries (s : t) (entries : list (Z * LRUCache.Buffer)) : option t :=
  match entries with
  | [] => Some s
  | (block_index, double_buffer) :: rest =>
    s ← (if bool_decide (block_index ∈ dirty_blocks s) then
           write_block (with_dirty (dirty_blocks s ∖ {[block_index]}) s)
                       block_index double_buffer
         else Some s);
    close_entries s rest
  end.

(** [void close()].  Without [write_mode] the buffers of the entries are
    released and the function returns: the cache object and the width table
    stay.  With [write_mode] the cache is deleted and the table freed at
    the end. *)
Definition close (s : t) : option t :=
  if closed s then Some s else
  let s := with_closed true s in
  if negb (write_mode s) then Some s
  else
    s ← close_entries s (LRUCache.items (lru_cache s));
    Some (with_widths [] (with_cache LRUCache.deleted s)).

End ManagedRaster.

Abbreviation MR := ManagedRaster.t.
Import ManagedRaster (lru_cache, dirty_blocks, actualBlockWidths, block_xsize,
  block_ysize, block_xmod, block_ymod, block_xbits, block_ybits, raster_x_size,
  raster_y_size, block_nx, block_ny, dataset, band, write_mode, closed).

(** ** class ManagedFlowDirRaster *)

(** [xj < 0 or xj >= raster_x_size or yj < 0 or yj >= raster_y_size]. *)
Definition outside (s : MR) (xj yj : Z) : bool :=
  (xj <? 0) || (raster_x_size s <=? xj) || (yj <? 0) || (raster_y_size s <=? yj).

Module ManagedFlowDirRaster.

(** The body of [for (int n_dir = 0; n_dir < 8; n_dir++)] in
    [is_local_high_point] for MFD, over the directions still to visit. *)
Fixpoint high_point_loop (s : MR) (xi yi : Z) (dirs : list Z) : option (MR * bool) :=
  match dirs with
  | [] => Some (s, true)
  | n_dir :: dirs =>
    dx ← at_index COL_OFFSETS n_dir;
    dy ← at_index ROW_OFFSETS n_dir;
    let xj := xi + dx in
    let yj := yi + dy in
    if outside s xj yj then high_point_loop s xi yi dirs
    else
      '(s, v) ← ManagedRaster.get s xj yj;
      flow_dir_j ← int_of_double v;
      back ← at_index FLOW_DIR_REVERSE_DIRECTION n_dir;
      let flow_ji := float_of_int (Z.land 15 (flow_dir_j ≫ (4 * back))) in
      if nonzero flow_ji then Some (s, false)
      else high_point_loop s xi yi dirs
  end.

(** [bool is_local_high_point(int xi, int yi)] for MFD: the answer and the
    raster after the reads. *)
Definition is_local_high_point (s : MR) (xi yi : Z) : option (MR * bool) :=
  high_point_loop s xi yi (seqZ 0 8).



End ManagedFlowDirRaster.

(** ** class Pixel *)
Module Pixel.

Record t := {
  raster : MR;
  x : Z;
  y : Z;
  val : Z
}.

(** [Pixel(ManagedFlowDirRaster<T> raster, int x, int y)].  The member is
    copied from the argument before the body reads through the argument:
    the copy has its own [dirty_blocks], taken before the read, and shares
    the cache and the dataset, which the read may have changed. *)
Definition new (raster : MR) (x y : Z) : option t :=
  '(r, v) ← ManagedRaster.get raster x y;
  val ← int_of_double v;
  Some {| raster := ManagedRaster.with_dirty (dirty_blocks raster) r;
          x := x; y := y; val := val |}.

Definition with_raster (r : MR) (p : t) : t :=
  {| raster := r; x := x p; y := y p; val := val p |}.

End Pixel.

(** ** class NeighborTuple *)
Module NeighborTuple.

Record t := {
  direction : Z;
  x : Z;
  y : Z;
  flow_proportion : float
}.

(** [NeighborTuple(int direction, int x, int y, float flow_proportion)]
    called with an integer proportion. *)
Definition new (direction x y flow : Z) : t :=
  {| direction := direction; x := x; y := y; flow_proportion := float_of_int flow |}.

End NeighborTuple.

Definition endVal : NeighborTuple.t := NeighborTuple.new 8 (-1) (-1) (-1).

(** ** Neighbor iterators *)

(** The flow encodings. *)
Inductive scheme := D8 | MFD.

(** What [m_ptr] points to: nothing, the shared [endVal], or a tuple
    allocated by the last step. *)
Inductive pointer :=
  | nullptr
  | to_endVal
  | to_new (n : NeighborTuple.t).

Module NeighborIterator.

Record t := {
  pixel : Pixel.t;
  m_ptr : pointer;
  i : Z
}.

(** The state a derived constructor starts from: [this->pixel = p]. *)
Definition init (p : Pixel.t) : t := {| pixel := p; m_ptr := nullptr; i := 0 |}.

(** [delete this->m_ptr; this->m_ptr = nullptr;] is undefined on the
    address of [endVal], which was not allocated. *)
Definition delete_m_ptr (it : t) : option t :=
  match m_ptr it with
  | to_endVal => None
  | _ => Some {| pixel := pixel it; m_ptr := nullptr; i := i it |}
  end.

Definition point_to (p : pointer) (it : t) : t :=
  {| pixel := pixel it; m_ptr := p; i := i it |}.

Definition advance (it : t) : t :=
  {| pixel := pixel it; m_ptr := m_ptr it; i := i it + 1 |}.

Definition set_i (n : Z) (it : t) : t :=
  {| pixel := pixel it; m_ptr := m_ptr it; i := n |}.

Definition set_raster (r : MR) (it : t) : t :=
  {| pixel := Pixel.with_raster r (pixel it); m_ptr := m_ptr it; i := i it |}.

(** [operator*]. *)
Definition deref (it : t) : option NeighborTuple.t :=
  match m_ptr it with
  | nullptr => None
  | to_endVal => Some endVal
  | to_new n => Some n
  end.

(** [it == end()]: the slot's address is that of [endVal]. *)
Definition at_end (it : t) : bool :=
  match m_ptr it with
  | to_endVal => true
  | _ => false
  end.

(** [virtual void next()] of the base class: no bounds test, no test of the
    flow, and the tuple [m_ptr] pointed to is not deleted. *)
Definition next (it : t) : option t :=
  if i it =? 8 then Some (point_to to_endVal it)
  else
    dx ← at_index COL_OFFSETS (i it);
    dy ← at_index ROW_OFFSETS (i it);
    let xj := Pixel.x (pixel it) + dx in
    let yj := Pixel.y (pixel it) + dy in
    let flow := Z.land (Pixel.val (pixel it) ≫ (i it * 4)) 15 in
    Some (advance (point_to (to_new (NeighborTuple.new (i it) xj yj flow)) it)).

(** [NeighborIterator(Pixel<T> pixel)], what [Neighbors::begin()] returns. *)
Definition new (p : Pixel.t) : option t := next (init p).

End NeighborIterator.
Import NeighborIterator (pixel, m_ptr, i).

(** A step that calls itself after [i++] runs at most nine times from
    [i = 0]; the recursion of the model is on that bound. *)
Definition next_depth : nat := 9.

Module DownslopeNeighborIterator.
Import NeighborIterator.

Fixpoint next_MFD (depth : nat) (it : t) : option t :=
  match depth with
  | O => None
  | S depth =>
    it ← delete_m_ptr it;
    if i it =? 8 then Some (point_to to_endVal it)
    else
      dx ← at_index COL_OFFSETS (i it);
      dy ← at_index ROW_OFFSETS (i it);
      let xj := Pixel.x (pixel it) + dx in
      let yj := Pixel.y (pixel it) + dy in
      if outside (Pixel.raster (pixel it)) xj yj then next_MFD depth (advance it)
      else
        let flow := Z.land (Pixel.val (pixel it) ≫ (i it * 4)) 15 in
        if negb (flow =? 0) then
          Some (advance (point_to (to_new (NeighborTuple.new (i it) xj yj flow)) it))
        else next_MFD depth (advance it)
  end.

Definition next_D8 (it : t) : option t :=
  it ← delete_m_ptr it;
  if i it =? 8 then Some (point_to to_endVal it)
  else
    dx ← at_index COL_OFFSETS (Pixel.val (pixel it));
    dy ← at_index ROW_OFFSETS (Pixel.val (pixel it));
    let xj := Pixel.x (pixel it) + dx in
    let yj := Pixel.y (pixel it) + dy in
    if outside (Pixel.raster (pixel it)) xj yj then Some (point_to to_endVal it)
    else
      Some (point_to (to_new (NeighborTuple.new (Pixel.val (pixel it)) xj yj 1))
                     (set_i 8 it)).

Definition next (T : scheme) (it : t) : option t :=
  match T with
  | MFD => next_MFD next_depth it
  | D8 => next_D8 it
  end.

(** [DownslopeNeighborIterator(Pixel<T> p)], what [begin()] returns. *)
Definition new (T : scheme) (p : Pixel.t) : option t := next T (init p).

End DownslopeNeighborIterator.

Module DownslopeNeighborNoSkipIterator.
Import NeighborIterator.

Fixpoint next_MFD (depth : nat) (it : t) : option t :=
  match depth with
  | O => None
  | S depth =>
    it ← delete_m_ptr it;
    if i it =? 8 then Some (point_to to_endVal it)
    else
      dx ← at_index COL_OFFSETS (i it);
      dy ← at_index ROW_OFFSETS (i it);
      let xj := Pixel.x (pixel it) + dx in
      let yj := Pixel.y (pixel it) + dy in
      let flow := Z.land (Pixel.val (pixel it) ≫ (i it * 4)) 15 in
      if negb (flow =? 0) then
        Some (advance (point_to (to_new (NeighborTuple.new (i it) xj yj flow)) it))
      else next_MFD depth (advance it)
  end.

Definition next_D8 (it : t) : option t :=
  it ← delete_m_ptr it;
  if i it =? 8 then Some (point_to to_endVal it)
  else
    dx ← at_index COL_OFFSETS (Pixel.val (pixel it));
    dy ← at_index ROW_OFFSETS (Pixel.val (pixel it));
    let xj := Pixel.x (pixel it) + dx in
    let yj := Pixel.y (pixel it) + dy in
    Some (point_to (to_new (NeighborTuple.new (Pixel.val (pixel it)) xj yj 1))
                   (set_i 8 it)).

Definition next (T : scheme) (it : t) : option t :=
  match T with
  | MFD => next_MFD next_depth it
  | D8 => next_D8 it
  end.

Definition new (T : scheme) (p : Pixel.t) : option t := next T (init p).

End DownslopeNeighborNoSkipIterator.

(** [for (int idx = 0; idx < 8; idx++) flow_dir_j_sum += (flow_dir_j >> (idx * 4)) & 0xF]. *)
Definition flow_dir_sum (flow_dir_j : Z) : Z :=
  foldl (fun flow_dir_j_sum idx => flow_dir_j_sum + Z.land (flow_dir_j ≫ (idx * 4)) 15)
        0 (seqZ 0 8).

Module UpslopeNeighborIterator.
Import NeighborIterator.

Fixpoint next_MFD (depth : nat) (it : t) : option t :=
  match depth with
  | O => None
  | S depth =>
    it ← delete_m_ptr it;
    if i it =? 8 then Some (point_to to_endVal it)
    else
      dx ← at_index COL_OFFSETS (i it);
      dy ← at_index ROW_OFFSETS (i it);
      let xj := Pixel.x (pixel it) + dx in
      let yj := Pixel.y (pixel it) + dy in
      if outside (Pixel.raster (pixel it)) xj yj then next_MFD depth (advance it)
      else
        '(r, v) ← ManagedRaster.get (Pixel.raster (pixel it)) xj yj;
        let it := set_raster r it in
        flow_dir_j ← int_of_double v;
        back ← at_index FLOW_DIR_REVERSE_DIRECTION (i it);
        let flow_ji := Z.land 15 (flow_dir_j ≫ (4 * back)) in
        if negb (flow_ji =? 0) then
          let flow_dir_j_sum := flow_dir_sum flow_dir_j in
          proportion ← div (float_of_int flow_ji) (float_of_int flow_dir_j_sum);
          Some (advance (point_to
            (to_new {| NeighborTuple.direction := i it; NeighborTuple.x := xj;
                       NeighborTuple.y := yj;
                       NeighborTuple.flow_proportion := proportion |}) it))
        else next_MFD depth (advance it)
  end.

Definition next (it : t) : option t := next_MFD next_depth it.

Definition new (p : Pixel.t) : option t := next (init p).

(** [next()] for D8: a neighbor is yielded, with proportion 1, when its
    value is the direction that points back. *)
Fixpoint next_D8 (depth : nat) (it : t) : option t :=
  match depth with
  | O => None
  | S depth =>
    it ← delete_m_ptr it;
    if i it =? 8 then Some (point_to to_endVal it)
    else
      dx ← at_index COL_OFFSETS (i it);
      dy ← at_index ROW_OFFSETS (i it);
      let xj := Pixel.x (pixel it) + dx in
      let yj := Pixel.y (pixel it) + dy in
      if outside (Pixel.raster (pixel it)) xj yj then next_D8 depth (advance it)
      else
        '(r, v) ← ManagedRaster.get (Pixel.raster (pixel it)) xj yj;
        let it := set_raster r it in
        flow_dir_j ← int_of_double v;
        back ← at_index FLOW_DIR_REVERSE_DIRECTION (i it);
        if flow_dir_j =? back then
          Some (advance (point_to (to_new (NeighborTuple.new (i it) xj yj 1)) it))
        else next_D8 depth (advance it)
  end.

Definition new_D8 (p : Pixel.t) : option t := next_D8 next_depth (init p).

End UpslopeNeighborIterator.

Module UpslopeNeighborNoDivideIterator.
Import NeighborIterator.

Fixpoint next_MFD (depth : nat) (it : t) : option t :=
  match depth with
  | O => None
  | S depth =>
    it ← delete_m_ptr it;
    if i it =? 8 then Some (point_to to_endVal it)
    else
      dx ← at_index COL_OFFSETS (i it);
      dy ← at_index ROW_OFFSETS (i it);
      let xj := Pixel.x (pixel it) + dx in
      let yj := Pixel.y (pixel it) + dy in
      if outside (Pixel.raster (pixel it)) xj yj then next_MFD depth (advance it)
      else
        '(r, v) ← ManagedRaster.get (Pixel.raster (pixel it)) xj yj;
        let it := set_raster r it in
        flow_dir_j ← int_of_double v;
        back ← at_index FLOW_DIR_REVERSE_DIRECTION (i it);
        let flow_ji := Z.land 15 (flow_dir_j ≫ (4 * back)) in
        if negb (flow_ji =? 0) then
          Some (advance (point_to (to_new (NeighborTuple.new (i it) xj yj flow_ji)) it))
        else next_MFD depth (advance it)
  end.

Definition next (it : t) : option t := next_MFD next_depth it.

Definition new (p : Pixel.t) : option t := next (init p).

(** [next()] for D8, the same statements as in [UpslopeNeighborIterator]. *)
Fixpoint next_D8 (depth : nat) (it : t) : option t :=
  match depth with
  | O => None
  | S depth =>
    it ← delete_m_ptr it;
    if i it =? 8 then Some (point_to to_endVal it)
    else
      dx ← at_index COL_OFFSETS (i it);
      dy ← at_index ROW_OFFSETS (i it);
      let xj := Pixel.x (pixel it) + dx in
      let yj := Pixel.y (pixel it) + dy in
      if outside (Pixel.raster (pixel it)) xj yj then next_D8 depth (advance it)
      else
        '(r, v) ← ManagedRaster.get (Pixel.raster (pixel it)) xj yj;
        let it := set_raster r it in
        flow_dir_j ← int_of_double v;
        back ← at_index FLOW_DIR_REVERSE_DIRECTION (i it);
        if flow_dir_j =? back then
          Some (advance (point_to (to_new (NeighborTuple.new (i it) xj yj 1)) it))
        else next_D8 depth (advance it)
  end.

Definition new_D8 (p : Pixel.t) : option t := next_D8 next_depth (init p).

End UpslopeNeighborNoDivideIterator.

(** [for (auto it = ns.begin(); it != ns.end(); ++it)]: the tuples an
    iterator yields before it reaches [end()], and the iterator there. *)
Fixpoint drain (next : NeighborIterator.t -> option NeighborIterator.t)
    (steps : nat) (it : NeighborIterator.t)
  : option (list NeighborTuple.t * NeighborIterator.t) :=
  match m_ptr it with
  | nullptr => None
  | to_endVal => Some ([], it)
  | to_new n =>
    match steps with
    | O => None
    | S steps =>
      it ← next it;
      '(l, it) ← drain next steps it;
      Some (n :: l, it)
    end
  end.

(** The range of [DownslopeNeighbors], [DownslopeNeighborsNoSkip],
    [UpslopeNeighbors] and [UpslopeNeighborsNoDivide]. *)
Definition range : Type := option (list NeighborTuple.t * NeighborIterator.t).

Definition DownslopeNeighbors (T : scheme) (p : Pixel.t) : range :=
  it ← DownslopeNeighborIterator.new T p; drain (DownslopeNeighborIterator.next T) 8 it.
Definition DownslopeNeighborsNoSkip (T : scheme) (p : Pixel.t) : range :=
  it ← DownslopeNeighborNoSkipIterator.new T p;
  drain (DownslopeNeighborNoSkipIterator.next T) 8 it.

(** The two upslope ranges for D8. *)
Definition UpslopeNeighbors_D8 (p : Pixel.t) : range :=
  it ← UpslopeNeighborIterator.new_D8 p;
  drain (UpslopeNeighborIterator.next_D8 next_depth) 8 it.

(** The range of the base class [Neighbors]. *)
Definition Neighbors (p : Pixel.t) : range :=
  it ← NeighborIterator.new p; drain NeighborIterator.next 8 it.

(** ** Well-formed rasters *)

Definition in_bounds (s : MR) (x y : Z) : Prop :=
  0 <= x < raster_x_size s /\ 0 <= y < raster_y_size s.

(** The fields that no operation before [close] assigns. *)
Definition shape (s : MR) :=
  (actualBlockWidths s, block_xsize s, block_ysize s, block_xmod s, block_ymod s,
   block_xbits s, block_ybits s, raster_x_size s, raster_y_size s,
   block_nx s, block_ny s, write_mode s, closed s).

(** The size of the raster. *)
Definition extent (s : MR) : Z * Z := (raster_x_size s, raster_y_size s).

(** What the constructor establishes about the block grid. *)
Record geometry_ok (s : MR) : Prop := {
  g_width : 0 < raster_x_size s;
  g_height : 0 < raster_y_size s;
  g_xbits : 0 <= block_xbits s;
  g_ybits : 0 <= block_ybits s;
  g_xsize : block_xsize s = 2 ^ block_xbits s;
  g_ysize : block_ysize s = 2 ^ block_ybits s;
  g_xmod : block_xmod s = block_xsize s - 1;
  g_ymod : block_ymod s = block_ysize s - 1;
  g_nx : block_nx s = (raster_x_size s + block_xsize s - 1) `quot` block_xsize s;
  g_ny : block_ny s = (raster_y_size s + block_ysize s - 1) `quot` block_ysize s;
  g_widths : forall bx by_, 0 <= bx < block_nx s -> 0 <= by_ < block_ny s ->
    at_index (actualBlockWidths s) (by_ * block_nx s + bx)
    = Some (Z.min (block_xsize s) (raster_x_size s - bx * block_xsize s));
  g_open : closed s = false
}.

(** The window of block [k], in closed form. *)
Definition window_of (s : MR) (k : Z) : Z * Z * Z * Z :=
  let bx := k `mod` block_nx s in
  let by_ := k `div` block_nx s in
  (bx * block_xsize s, by_ * block_ysize s,
   Z.min (block_xsize s) (raster_x_size s - bx * block_xsize s),
   Z.min (block_ysize s) (raster_y_size s - by_ * block_ysize s)).

(** The number of cells of that window. *)
Definition window_cells (s : MR) (k : Z) : Z :=
  let '(_, _, wx, wy) := window_of s k in wx * wy.

(** Block indices of the grid. *)
Definition valid_block (s : MR) (k : Z) : Prop := 0 <= k < block_nx s * block_ny s.

(** The cache holds each block once, within its capacity, and each buffer
    has the size of its block's window.  Its keys and the positions in a
    buffer are [int]s: the number of blocks of the grid and the number of
    cells of a full block do not exceed [INT_MAX]. *)
Record cache_ok (s : MR) : Prop := {
  c_nodup : NoDup (LRUCache.keys (lru_cache s));
  c_capacity : (0 < LRUCache.capacity (lru_cache s))%nat;
  c_length : (length (LRUCache.items (lru_cache s)) <= LRUCache.capacity (lru_cache s))%nat;
  c_entries : forall k buf, (k, buf) ∈ LRUCache.items (lru_cache s) ->
    valid_block s k /\ Z.of_nat (length buf) = window_cells s k;
  c_blocks : block_nx s * block_ny s <= INT_MAX;
  c_cells : block_xsize s * block_ysize s <= INT_MAX
}.

(** A raster in use: the constructor's geometry, a cache in order, and
    block and buffer indices within [int]. *)
Definition wf (s : MR) : Prop := geometry_ok s /\ cache_ok s.

(** The block of a cell and the place of the cell in its buffer, as the
    accessors compute them inside the raster. *)
Definition block_index_of (s : MR) (x y : Z) : Z :=
  (y `div` block_ysize s) * block_nx s + x `div` block_xsize s.

Definition cell_index_of (s : MR) (x y : Z) : Z :=
  (y `mod` block_ysize s)
  * Z.min (block_xsize s) (raster_x_size s - (x `div` block_xsize s) * block_xsize s)
  + x `mod` block_xsize s.

(** ** The contents of a raster *)

(** The value the raster holds at a cell: the resident buffer's, or the
    band's when the block is not resident. *)
Definition peek (s : MR) (x y : Z) : option double :=
  match LRUCache.assoc (block_index_of s x y) (LRUCache.items (lru_cache s)) with
  | Some buf => at_index buf (cell_index_of s x y)
  | None => Some (pixels (band s) x y)
  end.

(** The contents of the window of block [k] on the band. *)
Definition window_read (s : MR) (k : Z) : list double :=
  let '(xoff, yoff, wx, wy) := window_of s k in RasterIO_Read (band s) xoff yoff wx wy.

(** Writing buffer [buf] to the window of block [k]. *)
Definition window_write (s : MR) (k : Z) (buf : LRUCache.Buffer) : GDALRasterBand :=
  let '(xoff, yoff, wx, wy) := window_of s k in RasterIO_Write (band s) xoff yoff wx wy buf.

(** A resident block that an eviction would drop without writing holds
    what the band holds. *)
Definition coherent (s : MR) : Prop :=
  forall k buf, (k, buf) ∈ LRUCache.items (lru_cache s) ->
    write_mode s && bool_decide (k ∈ dirty_blocks s) = false ->
    buf = window_read s k.

(** The flow-direction code at a cell, as [int]. *)
Definition pixel_int (s : MR) (x y : Z) : option Z := peek s x y ≫= int_of_double.

(** Every cell of the raster converts to [int]. *)
Definition int_valued (s : MR) : Prop :=
  forall x y, in_bounds s x y -> is_Some (pixel_int s x y).

(** Every pixel of the band converts to [int], checked cell by cell. *)
Definition band_converts (s : MR) : bool :=
  forallb (fun y => forallb (fun x =>
      bool_decide (is_Some (int_of_double (pixels (band s) x y))))
    (seqZ 0 (raster_x_size s))) (seqZ 0 (raster_y_size s)).

(** Dirty containment. *)
Definition dirty_resident (s : MR) : Prop :=
  forall k, k ∈ dirty_blocks s -> k ∈ LRUCache.keys (lru_cache s).

(** What both modes maintain about [dirty_blocks]: dirty blocks are
    resident, and without [write_mode] there are none. *)
Definition dirty_ok (s : MR) : Prop :=
  dirty_resident s /\ (write_mode s = false -> dirty_blocks s = ∅).

(** The cache of [s] with other entries. *)
Definition cache_with (s : MR) (entries : list (Z * LRUCache.Buffer)) : LRUCache.t :=
  {| LRUCache.capacity := LRUCache.capacity (lru_cache s); LRUCache.items := entries |}.

(** The three ways a load of block [k] ends: there was room; the least
    recently used block was dropped; it was written back first. *)
Inductive loaded (s : MR) (k : Z) : MR -> Prop :=
  | loaded_room :
      (length (LRUCache.items (lru_cache s)) < LRUCache.capacity (lru_cache s))%nat ->
      loaded s k
        (ManagedRaster.with_cache
           (cache_with s ((k, window_read s k) :: LRUCache.items (lru_cache s))) s)
  | loaded_drop kept ke be :
      LRUCache.items (lru_cache s) = kept ++ [(ke, be)] ->
      write_mode s && bool_decide (ke ∈ dirty_blocks s) = false ->
      loaded s k
        (ManagedRaster.with_cache (cache_with s ((k, window_read s k) :: kept)) s)
  | loaded_flush kept ke be :
      LRUCache.items (lru_cache s) = kept ++ [(ke, be)] ->
      write_mode s = true -> ke ∈ dirty_blocks s ->
      loaded s k
        (ManagedRaster.with_band (window_write s ke be)
           (ManagedRaster.with_dirty (dirty_blocks s ∖ {[ke]})
              (ManagedRaster.with_cache (cache_with s ((k, window_read s k) :: kept)) s))).

(** The step both accessors start with. *)
Definition ensure (s : MR) (block_index : Z) : option MR :=
  if LRUCache.exist block_index (lru_cache s) then Some s
  else ManagedRaster._load_block s block_index.

(** The facts that a load, an access and a store have in common. *)
Record preserved (s s' : MR) : Prop := {
  p_shape : shape s' = shape s;
  p_wf : wf s';
  p_dirty : dirty_ok s -> dirty_ok s';
  p_readonly : write_mode s = false -> dirty_blocks s' = dirty_blocks s /\ band s' = band s
}.

(** An access changes no cell. *)
Definition same_cells (s s' : MR) : Prop :=
  forall x y, in_bounds s x y -> peek s' x y = peek s x y.

(** What the flow-direction code needs of a raster: it is well formed, its
    cache is coherent with the band, and its cells convert to [int]. *)
Definition good (s : MR) : Prop := wf s /\ coherent s /\ int_valued s.

(** The same grid holding the same flow-direction codes. *)
Definition same_view (s s' : MR) : Prop :=
  extent s' = extent s
  /\ forall x y, in_bounds s x y -> pixel_int s' x y = pixel_int s x y.

(** ** Sequences of calls *)

(** Calls on one raster. *)
Inductive call :=
  | call_get (x y : Z)
  | call_set (x y : Z) (v : double)
  | call_close.

Definition perform (s : MR) (c : call) : option MR :=
  match c with
  | call_get x y => fst <$> ManagedRaster.get s x y
  | call_set x y v => ManagedRaster.set s x y v
  | call_close => ManagedRaster.close s
  end.

Fixpoint run (s : MR) (calls : list call) : option MR :=
  match calls with
  | [] => Some s
  | c :: calls => s ← perform s c; run s calls
  end.

(** A call is in range when it addresses a cell of the raster. *)
Definition call_ok (s : MR) (c : call) : Prop :=
  match c with
  | call_get x y | call_set x y _ => in_bounds s x y
  | call_close => True
  end.

(** A raster in use, or one that [close] has released. *)
Definition in_use_or_closed (s : MR) : Prop :=
  (wf s /\ dirty_ok s) \/ (closed s = true /\ dirty_blocks s = ∅).

(** ** Expected neighbor tuples *)

(** Offsets and the reverse direction, total on [0..7]. *)
Definition col_offset (d : Z) : Z := default 0 (at_index COL_OFFSETS d).
Definition row_offset (d : Z) : Z := default 0 (at_index ROW_OFFSETS d).
Definition reverse (d : Z) : Z := default 0 (at_index FLOW_DIR_REVERSE_DIRECTION d).




(** The center flows to its neighbor in direction [d], a cell of the raster. *)
Definition flows_out (s : MR) (x y val d : Z) : bool :=
  negb (outside s (x + col_offset d) (y + row_offset d)) && negb (nibble val d =? 0).

(** The tuples expected of the multi-scheme Downslope iterator. *)
Fixpoint downslope_expected (s : MR) (x y val : Z) (dirs : list Z)
  : list NeighborTuple.t :=
  match dirs with
  | [] => []
  | d :: dirs =>
    if flows_out s x y val d
    then NeighborTuple.new d (x + col_offset d) (y + row_offset d) (nibble val d)
         :: downslope_expected s x y val dirs
    else downslope_expected s x y val dirs
  end.

(** The part of a tuple list that evaluation compares. *)
Definition summary (l : list NeighborTuple.t) : list (Z * Z * Z * float) :=
  (fun t => (NeighborTuple.direction t, NeighborTuple.x t, NeighborTuple.y t,
             NeighborTuple.flow_proportion t)) <$> l.

(** ** Rasters to evaluate the code on *)

Definition grid_pixels (rows : list (list Z)) : Z -> Z -> double :=
  fun x y => double_of_int (default 0 (at_index rows y ≫= fun r => at_index r x)).

Definition grid_file (block_x block_y : Z) (rows : list (list Z)) : RasterFile :=
  {| file_xsize := Z.of_nat (length (default [] (head rows)));
     file_ysize := Z.of_nat (length rows);
     file_bands := [ {| nBlockXSize := block_x; nBlockYSize := block_y;
                        NoDataValue := None; pixels := grid_pixels rows |} ];
     file_geotransform := double_of_int <$> [0; 1; 0; 0; 0; -1] |}.

Definition one_file (f : RasterFile) : FileSystem :=
  fun path => if String.eqb path "flow.tif" then Some f else None.

Definition open_grid (block_x block_y : Z) (rows : list (list Z)) (write_mode : bool)
  : construction MR :=
  ManagedRaster.new (one_file (grid_file block_x block_y rows)) "flow.tif" 1 write_mode.

(** The instance a construction leaves, if any. *)
Definition constructed {A} (c : construction A) : option A :=
  match c with
  | Constructed a => Some a
  | _ => None
  end.

(** A 3 x 3 multi-direction raster in 2 x 2 blocks: the west neighbor of
    the centre holds [0x1], its east neighbor [0x14]. *)
Definition flow_grid : list (list Z) := [[0; 0; 0]; [1; 0; 20]; [0; 0; 0]].


(** A 3 x 3 single-direction raster; the centre holds 8, the top left 4. *)
Definition d8_grid : list (list Z) := [[4; 2; 0]; [0; 8; 4]; [6; 7; 255]].

(** A 5 x 5 multi-direction raster whose centre holds [0x00000120]:
    nibble 1 = 2 and nibble 2 = 1. *)
Definition centre_grid : list (list Z) :=
  [[0; 0; 0; 0; 0]; [0; 0; 0; 0; 0]; [0; 0; 288; 0; 0]; [0; 0; 0; 0; 0]; [0; 0; 0; 0; 0]].

(** A 9 x 9 raster of zeros in 1 x 1 blocks: 81 blocks, more than the cache
    holds. *)
Definition zero_grid : list (list Z) := replicate 9 (replicate 9 0).

(** Reads of the 64 cells that follow (0, 0) in row-major order. *)
Definition sweep : list call := (fun n => call_get (n `mod` 9) (n `div` 9)) <$> seqZ 1 64.

(** Scenario S2 at the real capacity: mark cell (0, 0), touch 64 other
    blocks, and report whether block 0 is still resident, the dirty blocks,
    the pixel of the band at (0, 0) and what [get] then returns there. *)
Definition eviction_scenario : option (bool * list Z * option Z * option Z) :=
  s ← constructed (open_grid 1 1 zero_grid true);
  s ← ManagedRaster.set s 0 0 (double_of_int 7);
  s ← run s sweep;
  r ← ManagedRaster.get s 0 0;
  Some (LRUCache.exist 0 (lru_cache s), elements (dirty_blocks s),
        int_of_double (pixels (band s) 0 0), int_of_double r.2).

(** Construct the 3 x 3 raster, read cell (0, 0), close: the mode, the
    latch, the dirty blocks and the keys of the cache afterwards. *)
Definition close_scenario (write_mode : bool)
  : option (bool * bool * list Z * list Z) :=
  s ← constructed (open_grid 2 2 flow_grid write_mode);
  r ← ManagedRaster.get s 0 0;
  s ← ManagedRaster.close r.1;
  Some (ManagedRaster.write_mode s, closed s, elements (dirty_blocks s),
        LRUCache.keys (lru_cache s)).



(** The tuples a Downslope iterator yields at [(x, y)] of a freshly
    constructed raster. *)
Definition downslope_at (T : scheme) (c : construction MR) (x y : Z)
  : option (list (Z * Z * Z * float)) :=
  s ← constructed c;
  p ← Pixel.new s x y;
  r ← DownslopeNeighbors T p;
  Some (summary r.1).

(** ** Reads and writes *)



(** ** Expected neighbor tuples, other ranges *)

(** The tuple of direction [d] around [(x, y)] weighted by nibble [d] of
    [val]. *)
Definition neighbor_tuple (x y val d : Z) : NeighborTuple.t :=
  NeighborTuple.new d (x + col_offset d) (y + row_offset d) (nibble val d).

(** The tuples expected of the multi-scheme Downslope-no-skip iterator: no
    test against the raster bounds. *)
Definition noskip_expected (x y val : Z) (dirs : list Z) : list NeighborTuple.t :=
  neighbor_tuple x y val <$> filter (fun d => nibble val d <> 0) dirs.



(** ** The raster as a plain grid *)


(** * Properties *)

Example at_index_ex : at_index COL_OFFSETS 3 = Some (-1) /\ at_index COL_OFFSETS 8 = None
  /\ at_index COL_OFFSETS (-1) = None.
Proof. repeat split. Qed.

Example float_ex : float_of_int 1 = S754_finite false 8388608 (-23)
  /\ int_of_double (double_of_int 20) = Some 20
  /\ int_of_double (double_of_int (-7)) = Some (-7)
  /\ div (float_of_int 1) (float_of_int 5) = Some (S754_finite false 13421773 (-26))
  /\ div (float_of_int 1) (float_of_int 0) = None.
Proof. vm_compute. repeat split. Qed.

Section Geometry.
Variable s : MR.
Hypothesis G : geometry_ok s.

Lemma xsize_pos : 0 < block_xsize s.
Proof. rewrite (g_xsize s G). apply Z.pow_pos_nonneg; [lia | apply G]. Qed.

Lemma ysize_pos : 0 < block_ysize s.
Proof. rewrite (g_ysize s G). apply Z.pow_pos_nonneg; [lia | apply G]. Qed.

Lemma nx_eq : block_nx s = (raster_x_size s - 1) `div` block_xsize s + 1.
Proof.
  pose proof xsize_pos. pose proof (g_width s G).
  rewrite (g_nx s G), Z.quot_div_nonneg by lia.
  replace (raster_x_size s + block_xsize s - 1)
    with (raster_x_size s - 1 + 1 * block_xsize s) by lia.
  rewrite Z.div_add by lia. reflexivity.
Qed.

Lemma ny_eq : block_ny s = (raster_y_size s - 1) `div` block_ysize s + 1.
Proof.
  pose proof ysize_pos. pose proof (g_height s G).
  rewrite (g_ny s G), Z.quot_div_nonneg by lia.
  replace (raster_y_size s + block_ysize s - 1)
    with (raster_y_size s - 1 + 1 * block_ysize s) by lia.
  rewrite Z.div_add by lia. reflexivity.
Qed.

Lemma nx_pos : 0 < block_nx s.
Proof.
  pose proof xsize_pos. pose proof (g_width s G). rewrite nx_eq.
  pose proof (Z.div_pos (raster_x_size s - 1) (block_xsize s)). lia.
Qed.

Lemma ny_pos : 0 < block_ny s.
Proof.
  pose proof ysize_pos. pose proof (g_height s G). rewrite ny_eq.
  pose proof (Z.div_pos (raster_y_size s - 1) (block_ysize s)). lia.
Qed.

Lemma block_col_range x : 0 <= x < raster_x_size s ->
  0 <= x `div` block_xsize s < block_nx s.
Proof.
  intros Hx. pose proof xsize_pos. rewrite nx_eq. split.
  - apply Z.div_pos; lia.
  - pose proof (Z.div_le_mono x (raster_x_size s - 1) (block_xsize s)). lia.
Qed.

Lemma block_row_range y : 0 <= y < raster_y_size s ->
  0 <= y `div` block_ysize s < block_ny s.
Proof.
  intros Hy. pose proof ysize_pos. rewrite ny_eq. split.
  - apply Z.div_pos; lia.
  - pose proof (Z.div_le_mono y (raster_y_size s - 1) (block_ysize s)). lia.
Qed.

Lemma grid_index_range bx by_ :
  0 <= bx < block_nx s -> 0 <= by_ < block_ny s ->
  valid_block s (by_ * block_nx s + bx).
Proof. unfold valid_block. nia. Qed.

Lemma grid_index_mod bx by_ :
  0 <= bx < block_nx s -> (by_ * block_nx s + bx) `mod` block_nx s = bx.
Proof.
  intros. rewrite Z.add_comm, Z.mod_add by lia. apply Z.mod_small. lia.
Qed.

Lemma grid_index_div bx by_ :
  0 <= bx < block_nx s -> (by_ * block_nx s + bx) `div` block_nx s = by_.
Proof.
  intros. rewrite Z.add_comm, Z.div_add by lia. rewrite Z.div_small; lia.
Qed.

Lemma valid_block_col k : valid_block s k -> 0 <= k `mod` block_nx s < block_nx s.
Proof. intros. apply Z.mod_pos_bound, nx_pos. Qed.

Lemma valid_block_row k : valid_block s k -> 0 <= k `div` block_nx s < block_ny s.
Proof.
  intros [H0 H1]. pose proof nx_pos. split.
  - apply Z.div_pos; lia.
  - apply Z.div_lt_upper_bound; lia.
Qed.

Lemma block_index_valid x y : in_bounds s x y -> valid_block s (block_index_of s x y).
Proof.
  intros [Hx Hy]. apply grid_index_range;
    [apply block_col_range | apply block_row_range]; assumption.
Qed.

(** The source's window computation agrees with the closed form. *)
Lemma block_window_eq k : valid_block s k ->
  ManagedRaster.block_window s k = Some (window_of s k).
Proof.
  intros Hk. pose proof nx_pos. pose proof xsize_pos. pose proof ysize_pos.
  pose proof (valid_block_col k Hk). pose proof (valid_block_row k Hk).
  destruct Hk as [Hk0 Hk1].
  unfold ManagedRaster.block_window, crem, cdiv, window_of.
  destruct (Z.eqb_spec (block_nx s) 0); [lia |]. simpl.
  rewrite Z.rem_mod_nonneg, Z.quot_div_nonneg by lia.
  rewrite !Z.shiftl_mul_pow2 by apply G.
  rewrite <- (g_xsize s G), <- (g_ysize s G).
  do 4 f_equal.
  - destruct (Z.ltb_spec (raster_x_size s) (k `mod` block_nx s * block_xsize s + block_xsize s)); lia.
  - destruct (Z.ltb_spec (raster_y_size s) (k `div` block_nx s * block_ysize s + block_ysize s)); lia.
Qed.

Lemma window_of_block_index x y : in_bounds s x y ->
  window_of s (block_index_of s x y)
  = ((x `div` block_xsize s) * block_xsize s, (y `div` block_ysize s) * block_ysize s,
     Z.min (block_xsize s) (raster_x_size s - (x `div` block_xsize s) * block_xsize s),
     Z.min (block_ysize s) (raster_y_size s - (y `div` block_ysize s) * block_ysize s)).
Proof.
  intros [Hx Hy]. unfold window_of, block_index_of.
  rewrite grid_index_mod, grid_index_div by (apply block_col_range; assumption).
  reflexivity.
Qed.

(** Inside the raster the cell index stays inside the block's buffer. *)
Lemma cell_index_range x y : in_bounds s x y ->
  0 <= cell_index_of s x y < window_cells s (block_index_of s x y).
Proof.
  intros Hb. unfold window_cells. rewrite window_of_block_index by assumption.
  destruct Hb as [Hx Hy]. unfold cell_index_of.
  pose proof xsize_pos. pose proof ysize_pos.
  pose proof (Z.mod_pos_bound x (block_xsize s)).
  pose proof (Z.mod_pos_bound y (block_ysize s)).
  pose proof (Z.div_mod x (block_xsize s)).
  pose proof (Z.div_mod y (block_ysize s)).
  set (bx := x `div` block_xsize s) in *. set (by_ := y `div` block_ysize s) in *.
  set (cx := x `mod` block_xsize s) in *. set (cy := y `mod` block_ysize s) in *.
  set (wx := Z.min (block_xsize s) (raster_x_size s - bx * block_xsize s)).
  set (wy := Z.min (block_ysize s) (raster_y_size s - by_ * block_ysize s)).
  assert (0 <= cx < wx) by lia. assert (0 <= cy < wy) by lia.
  nia.
Qed.

Lemma land_xmod x : 0 <= x -> Z.land x (block_xmod s) = x `mod` block_xsize s.
Proof.
  intros. rewrite (g_xmod s G), (g_xsize s G), Z.sub_1_r, <- Z.ones_equiv.
  apply Z.land_ones, G.
Qed.

Lemma land_ymod y : 0 <= y -> Z.land y (block_ymod s) = y `mod` block_ysize s.
Proof.
  intros. rewrite (g_ymod s G), (g_ysize s G), Z.sub_1_r, <- Z.ones_equiv.
  apply Z.land_ones, G.
Qed.

Lemma cdiv_xsize x : 0 <= x -> cdiv x (block_xsize s) = Some (x `div` block_xsize s).
Proof.
  intros. pose proof xsize_pos. unfold cdiv.
  destruct (Z.eqb_spec (block_xsize s) 0); [lia |].
  rewrite Z.quot_div_nonneg by lia. reflexivity.
Qed.

Lemma cdiv_ysize y : 0 <= y -> cdiv y (block_ysize s) = Some (y `div` block_ysize s).
Proof.
  intros. pose proof ysize_pos. unfold cdiv.
  destruct (Z.eqb_spec (block_ysize s) 0); [lia |].
  rewrite Z.quot_div_nonneg by lia. reflexivity.
Qed.

Lemma width_at_block_index x y : in_bounds s x y ->
  at_index (actualBlockWidths s) (block_index_of s x y)
  = Some (Z.min (block_xsize s) (raster_x_size s - (x `div` block_xsize s) * block_xsize s)).
Proof.
  intros [Hx Hy]. apply (g_widths s G);
    [apply block_col_range | apply block_row_range]; assumption.
Qed.

End Geometry.

(** ** The accessors' [int]s *)

Lemma as_int_fits z : 0 <= z <= INT_MAX -> as_int z = Some z.
Proof.
  intros [Hlo Hhi]. unfold as_int.
  assert (INT_MIN <= 0) by (vm_compute; discriminate).
  destruct (Z.leb_spec INT_MIN z); [| lia].
  destruct (Z.leb_spec z INT_MAX); [reflexivity | lia].
Qed.

Lemma as_int_Some z z' : as_int z = Some z' -> z' = z /\ INT_MIN <= z <= INT_MAX.
Proof.
  unfold as_int.
  destruct (Z.leb_spec INT_MIN z); [| discriminate].
  destruct (Z.leb_spec z INT_MAX); [| discriminate].
  intros [= <-]. lia.
Qed.

Lemma as_int_above z : INT_MAX < z -> as_int z = None.
Proof.
  intros Hz. unfold as_int.
  destruct (Z.leb_spec z INT_MAX); [lia |]. rewrite andb_false_r. reflexivity.
Qed.

Section IntRange.
Variable s : MR.
Hypothesis G : geometry_ok s.
Hypothesis C : cache_ok s.

(** The indices of the grid's blocks are [int]s. *)
Lemma valid_block_int k : valid_block s k -> as_int k = Some k.
Proof.
  intros [H0 H1]. pose proof (c_blocks s C). apply as_int_fits.
  lia.
Qed.

(** Inside the raster the accessors' block coordinates and block index are
    the [int]s they would be on integers. *)
Lemma block_col_int x y : in_bounds s x y ->
  cdiv x (block_xsize s) ≫= as_int = Some (x `div` block_xsize s).
Proof.
  intros [Hx Hy]. rewrite (cdiv_xsize s G x) by lia. cbn [mbind option_bind].
  pose proof (block_col_range s G x Hx). pose proof (ny_pos s G).
  pose proof (c_blocks s C). apply as_int_fits. nia.
Qed.

Lemma block_row_int x y : in_bounds s x y ->
  cdiv y (block_ysize s) ≫= as_int = Some (y `div` block_ysize s).
Proof.
  intros [Hx Hy]. rewrite (cdiv_ysize s G y) by lia. cbn [mbind option_bind].
  pose proof (block_row_range s G y Hy). pose proof (nx_pos s G).
  pose proof (c_blocks s C). apply as_int_fits. nia.
Qed.

Lemma block_index_int x y : in_bounds s x y ->
  as_int (y `div` block_ysize s * block_nx s)
    ≫= (fun rows => as_int (rows + x `div` block_xsize s))
  = Some (block_index_of s x y).
Proof.
  intros [Hx Hy].
  pose proof (block_col_range s G x Hx) as Hc. pose proof (block_row_range s G y Hy) as Hr.
  pose proof (grid_index_range s _ _ Hc Hr) as Hk. unfold valid_block in Hk.
  pose proof (c_blocks s C).
  rewrite as_int_fits by nia. cbn [mbind option_bind].
  unfold block_index_of. apply as_int_fits. lia.
Qed.

(** So is the index into the block's buffer. *)
Lemma cell_index_int x y : in_bounds s x y ->
  as_int (cell_index_of s x y) = Some (cell_index_of s x y).
Proof.
  intros Hb. pose proof (cell_index_range s G x y Hb) as Hr.
  unfold window_cells in Hr. rewrite (window_of_block_index s G x y Hb) in Hr.
  destruct Hb as [Hx Hy].
  pose proof (xsize_pos s G). pose proof (ysize_pos s G). pose proof (c_cells s C).
  pose proof (Z.mod_pos_bound x (block_xsize s)).
  pose proof (Z.mod_pos_bound y (block_ysize s)).
  pose proof (Z.div_mod x (block_xsize s)).
  pose proof (Z.div_mod y (block_ysize s)).
  apply as_int_fits.
  set (wx := Z.min (block_xsize s) _) in Hr. set (wy := Z.min (block_ysize s) _) in Hr.
  assert (0 < wx <= block_xsize s) by (unfold wx; lia).
  assert (0 < wy <= block_ysize s) by (unfold wy; lia).
  assert (wx * wy <= block_xsize s * block_ysize s) by nia.
  lia.
Qed.

End IntRange.

(** ** The cache as an association list *)
Section CacheList.
Implicit Types (l : list (Z * LRUCache.Buffer)) (k : Z) (b : LRUCache.Buffer).

Lemma assoc_elem l k b : LRUCache.assoc k l = Some b -> (k, b) ∈ l.
Proof.
  induction l as [|[k' b'] l IH]; simpl; [discriminate |].
  destruct (decide (k' = k)) as [->|]; intros H.
  - injection H as ->. apply list_elem_of_here.
  - apply list_elem_of_further, IH, H.
Qed.

Lemma assoc_None l k : LRUCache.assoc k l = None <-> k ∉ l.*1.
Proof.
  induction l as [|[k' b'] l IH]; simpl.
  - split; [intros _; apply not_elem_of_nil | reflexivity].
  - rewrite not_elem_of_cons. destruct (decide (k' = k)) as [->|]; simpl.
    + split; [discriminate | intros [Hk _]; exfalso; apply Hk; reflexivity].
    + rewrite IH. split; [intros Hk; split; [intros ->; contradiction | assumption] | intros [_ Hk]; assumption].
Qed.

Lemma assoc_is_Some l k : is_Some (LRUCache.assoc k l) <-> k ∈ l.*1.
Proof.
  rewrite <- not_eq_None_Some, assoc_None.
  destruct (decide (k ∈ l.*1)); tauto.
Qed.

Lemma elem_assoc l k b : NoDup l.*1 -> (k, b) ∈ l -> LRUCache.assoc k l = Some b.
Proof.
  induction l as [|[k' b'] l IH]; simpl; intros Hnd Hin.
  - apply elem_of_nil in Hin. contradiction.
  - apply NoDup_cons in Hnd as [Hk Hnd]. apply elem_of_cons in Hin as [Heq|Hin].
    + injection Heq as -> ->. rewrite decide_True by reflexivity. reflexivity.
    + destruct (decide (k' = k)) as [->|]; [| auto].
      exfalso. apply Hk. apply (list_elem_of_fmap_2 fst) in Hin. exact Hin.
Qed.

Lemma elem_remove l k k' b : (k', b) ∈ LRUCache.remove k l <-> (k', b) ∈ l /\ k' <> k.
Proof.
  induction l as [|[k0 b0] l IH]; simpl.
  - rewrite elem_of_nil. tauto.
  - destruct (decide (k0 = k)) as [->|Hne].
    + rewrite IH, elem_of_cons. split; [tauto |].
      intros [[Heq|?] ?]; [injection Heq as -> ->; contradiction | tauto].
    + rewrite !elem_of_cons, IH. split; [| tauto].
      intros [Heq|?]; [injection Heq as -> ->; tauto | tauto].
Qed.

Lemma keys_remove l k k' : k' ∈ (LRUCache.remove k l).*1 <-> k' ∈ l.*1 /\ k' <> k.
Proof.
  rewrite !list_elem_of_fmap. split.
  - intros ([k0 b] & -> & Hin). apply elem_remove in Hin as [Hin Hne].
    split; [exists (k0, b) | ]; auto.
  - intros [([k0 b] & -> & Hin) Hne]. exists (k0, b). split; [reflexivity |].
    apply elem_remove. auto.
Qed.

Lemma remove_absent l k : k ∉ l.*1 -> LRUCache.remove k l = l.
Proof.
  induction l as [|[k0 b0] l IH]; simpl; [reflexivity |].
  rewrite not_elem_of_cons. intros [Hne Hk].
  rewrite decide_False by congruence. f_equal. auto.
Qed.

Lemma NoDup_remove l k : NoDup l.*1 -> NoDup (LRUCache.remove k l).*1.
Proof.
  induction l as [|[k0 b0] l IH]; simpl; [auto |].
  rewrite NoDup_cons. intros [Hk Hnd].
  destruct (decide (k0 = k)); [auto |]. simpl. apply NoDup_cons. split; [| auto].
  rewrite keys_remove. tauto.
Qed.

Lemma length_remove_present l k :
  NoDup l.*1 -> k ∈ l.*1 -> S (length (LRUCache.remove k l)) = length l.
Proof.
  induction l as [|[k0 b0] l IH]; simpl; intros Hnd Hin.
  - apply elem_of_nil in Hin. contradiction.
  - apply NoDup_cons in Hnd as [Hk Hnd].
    destruct (decide (k0 = k)) as [->|Hne].
    + rewrite remove_absent by assumption. reflexivity.
    + simpl. f_equal. apply IH; [assumption |].
      apply elem_of_cons in Hin as [?|?]; [congruence | assumption].
Qed.

Lemma assoc_remove l k k' :
  LRUCache.assoc k' (LRUCache.remove k l)
  = if decide (k' = k) then None else LRUCache.assoc k' l.
Proof.
  induction l as [|[k0 b0] l IH]; simpl.
  - destruct (decide (k' = k)); reflexivity.
  - destruct (decide (k0 = k)) as [->|Hne]; simpl.
    + rewrite IH. destruct (decide (k' = k)) as [->|];
        [reflexivity | rewrite decide_False by congruence; reflexivity].
    + rewrite IH. destruct (decide (k0 = k')) as [->|]; [| reflexivity].
      rewrite decide_False by congruence. reflexivity.
Qed.

Lemma keys_store l k b : (LRUCache.store_entry k b <$> l).*1 = l.*1.
Proof.
  induction l as [|[k0 b0] l IH]; simpl; [reflexivity |].
  f_equal; [| exact IH]. unfold LRUCache.store_entry. simpl.
  destruct (decide (k0 = k)); simpl; congruence.
Qed.

Lemma assoc_store l k b k' :
  LRUCache.assoc k' (LRUCache.store_entry k b <$> l)
  = if decide (k' = k) then (fun _ => b) <$> LRUCache.assoc k l else LRUCache.assoc k' l.
Proof.
  induction l as [|[k0 b0] l IH].
  - simpl. destruct (decide (k' = k)); reflexivity.
  - rewrite fmap_cons. unfold LRUCache.store_entry at 1.
    cbn [LRUCache.assoc fst]. rewrite IH.
    repeat (case_decide; subst; cbn [LRUCache.assoc fst snd] in * );
      congruence || reflexivity.
Qed.

Lemma elem_store l k b k' b' :
  (k', b') ∈ LRUCache.store_entry k b <$> l ->
  (k' = k /\ b' = b) \/ (k' <> k /\ (k', b') ∈ l).
Proof.
  rewrite list_elem_of_fmap. intros ([k0 b0] & Heq & Hin).
  unfold LRUCache.store_entry in Heq. simpl in Heq.
  destruct (decide (k0 = k)); injection Heq as -> ->; auto.
Qed.

End CacheList.

(** ** Arrays and windows *)

Lemma at_index_lookup {A} (l : list A) i : 0 <= i -> at_index l i = l !! Z.to_nat i.
Proof. intros. unfold at_index. destruct (Z.leb_spec 0 i); [reflexivity | lia]. Qed.

Lemma at_index_is_Some {A} (l : list A) i :
  is_Some (at_index l i) <-> 0 <= i < Z.of_nat (length l).
Proof.
  unfold at_index. destruct (Z.leb_spec 0 i).
  - rewrite lookup_lt_is_Some. lia.
  - split; [intros [? ?]; discriminate | lia].
Qed.

Lemma at_index_insert_eq {A} (l : list A) i v :
  0 <= i < Z.of_nat (length l) -> at_index (<[Z.to_nat i := v]> l) i = Some v.
Proof.
  intros. rewrite at_index_lookup by lia. apply list_lookup_insert_eq. lia.
Qed.


Lemma length_RasterIO_Read b xoff yoff wx wy :
  Z.of_nat (length (RasterIO_Read b xoff yoff wx wy)) = Z.max 0 (wx * wy).
Proof. unfold RasterIO_Read. rewrite length_fmap, length_seqZ. lia. Qed.

Lemma at_index_RasterIO_Read b xoff yoff wx wy n :
  0 <= n < wx * wy ->
  at_index (RasterIO_Read b xoff yoff wx wy) n
  = Some (pixels b (xoff + n `mod` wx) (yoff + n `div` wx)).
Proof.
  intros Hn. rewrite at_index_lookup by lia. unfold RasterIO_Read.
  rewrite list_lookup_fmap.
  assert (seqZ 0 (wx * wy) !! Z.to_nat n = Some n) as ->; [| reflexivity].
  apply lookup_seqZ. lia.
Qed.

Lemma RasterIO_Read_ext b b' xoff yoff wx wy :
  0 < wx ->
  (forall x y, xoff <= x < xoff + wx -> yoff <= y < yoff + wy ->
               pixels b' x y = pixels b x y) ->
  RasterIO_Read b' xoff yoff wx wy = RasterIO_Read b xoff yoff wx wy.
Proof.
  intros Hwx Hpix. unfold RasterIO_Read. apply list_fmap_ext.
  intros i n Hn. apply lookup_seqZ in Hn as [-> Hn]. rewrite Z.add_0_l.
  pose proof (Z.mod_pos_bound (Z.of_nat i) wx Hwx).
  assert (0 <= Z.of_nat i `div` wx < wy).
  { split; [apply Z.div_pos; lia | apply Z.div_lt_upper_bound; lia]. }
  apply Hpix; lia.
Qed.

Section Windows.
Variable s : MR.
Hypothesis G : geometry_ok s.

Lemma window_dims_pos k xoff yoff wx wy :
  valid_block s k -> window_of s k = (xoff, yoff, wx, wy) -> 0 < wx /\ 0 < wy.
Proof.
  intros Hk Hw. pose proof (xsize_pos s G). pose proof (ysize_pos s G).
  pose proof (valid_block_col s G k Hk). pose proof (valid_block_row s G k Hk).
  unfold window_of in Hw. injection Hw as <- <- <- <-.
  assert (k `mod` block_nx s * block_xsize s < raster_x_size s).
  { rewrite (nx_eq s G) in *.
    pose proof (Z.mul_div_le (raster_x_size s - 1) (block_xsize s)). nia. }
  assert (k `div` block_nx s * block_ysize s < raster_y_size s).
  { rewrite (ny_eq s G) in *.
    pose proof (Z.mul_div_le (raster_y_size s - 1) (block_ysize s)). nia. }
  lia.
Qed.

Lemma window_cells_pos k : valid_block s k -> 0 < window_cells s k.
Proof.
  intros Hk. unfold window_cells.
  destruct (window_of s k) as [[[xoff yoff] wx] wy] eqn:Hw.
  destruct (window_dims_pos k _ _ _ _ Hk Hw). apply Z.mul_pos_pos; assumption.
Qed.

(** A cell of the window of block [k] is a cell of the raster that lies in
    block [k], at the index the accessors compute. *)
Lemma window_cell k x y xoff yoff wx wy :
  valid_block s k -> window_of s k = (xoff, yoff, wx, wy) ->
  xoff <= x < xoff + wx -> yoff <= y < yoff + wy ->
  in_bounds s x y /\ block_index_of s x y = k
  /\ cell_index_of s x y = (y - yoff) * wx + (x - xoff).
Proof.
  intros Hk Hw Hx Hy. pose proof (xsize_pos s G). pose proof (ysize_pos s G).
  pose proof (nx_pos s G).
  pose proof (valid_block_col s G k Hk). pose proof (valid_block_row s G k Hk).
  unfold window_of in Hw. injection Hw as <- <- <- <-.
  set (bx := k `mod` block_nx s) in *. set (by_ := k `div` block_nx s) in *.
  assert (x `div` block_xsize s = bx) as Hbx.
  { symmetry. apply (Z.div_unique x (block_xsize s) bx (x - bx * block_xsize s)); lia. }
  assert (y `div` block_ysize s = by_) as Hby.
  { symmetry. apply (Z.div_unique y (block_ysize s) by_ (y - by_ * block_ysize s)); lia. }
  split; [unfold in_bounds; nia |]. split.
  - unfold block_index_of. rewrite Hbx, Hby. subst bx by_.
    pose proof (Z.div_mod k (block_nx s)). lia.
  - unfold cell_index_of. rewrite Hbx.
    rewrite (Z.mod_eq x), (Z.mod_eq y), Hbx, Hby by lia. lia.
Qed.

(** Conversely a cell of the raster lies in the window of its block. *)
Lemma cell_in_window x y xoff yoff wx wy :
  in_bounds s x y -> window_of s (block_index_of s x y) = (xoff, yoff, wx, wy) ->
  xoff <= x < xoff + wx /\ yoff <= y < yoff + wy.
Proof.
  intros Hb Hw. rewrite (window_of_block_index s G x y Hb) in Hw.
  injection Hw as <- <- <- <-. destruct Hb as [Hx Hy].
  pose proof (xsize_pos s G). pose proof (ysize_pos s G).
  pose proof (Z.mod_pos_bound x (block_xsize s)).
  pose proof (Z.mod_pos_bound y (block_ysize s)).
  pose proof (Z.div_mod x (block_xsize s)).
  pose proof (Z.div_mod y (block_ysize s)).
  lia.
Qed.

(** Reading the window of a block gives each of its cells at its index. *)
Lemma window_read_cell x y : in_bounds s x y ->
  at_index (window_read s (block_index_of s x y)) (cell_index_of s x y)
  = Some (pixels (band s) x y).
Proof.
  intros Hb. unfold window_read.
  destruct (window_of s (block_index_of s x y)) as [[[xoff yoff] wx] wy] eqn:Hw.
  pose proof (block_index_valid s G x y Hb) as Hk.
  destruct (cell_in_window x y _ _ _ _ Hb Hw) as [Hx Hy].
  destruct (window_cell _ x y _ _ _ _ Hk Hw Hx Hy) as (_ & _ & Hc).
  rewrite Hc, at_index_RasterIO_Read by nia.
  rewrite (Z.add_comm ((y - yoff) * wx)), Z.mod_add, Z.div_add by lia.
  rewrite Z.mod_small, Z.div_small by lia.
  do 2 f_equal; lia.
Qed.

Lemma length_window_read k : valid_block s k ->
  Z.of_nat (length (window_read s k)) = window_cells s k.
Proof.
  intros Hk. pose proof (window_cells_pos k Hk) as Hpos.
  unfold window_read, window_cells in *.
  destruct (window_of s k) as [[[xoff yoff] wx] wy].
  rewrite length_RasterIO_Read. lia.
Qed.

End Windows.

(** ** Loading a block *)

Lemma geometry_ok_shape s s' : shape s' = shape s -> geometry_ok s -> geometry_ok s'.
Proof.
  unfold shape. intros Hs [].
  injection Hs as Hw Hbx Hby Hxm Hym Hxb Hyb HW HH Hnx Hny Hwm Hcl.
  constructor; rewrite ?Hw, ?Hbx, ?Hby, ?Hxm, ?Hym, ?Hxb, ?Hyb, ?HW, ?HH, ?Hnx, ?Hny, ?Hcl;
    assumption.
Qed.

Lemma window_of_shape s s' k : shape s' = shape s -> window_of s' k = window_of s k.
Proof.
  unfold shape, window_of. intros Hs.
  injection Hs as Hw Hbx Hby Hxm Hym Hxb Hyb HW HH Hnx Hny Hwm Hcl.
  rewrite Hbx, Hby, HW, HH, Hnx. reflexivity.
Qed.

Lemma load_block_loaded s k :
  wf s -> valid_block s k -> k ∉ LRUCache.keys (lru_cache s) ->
  exists s', ManagedRaster._load_block s k = Some s' /\ loaded s k s'.
Proof.
  intros [G C] Hk Hfresh. unfold ManagedRaster._load_block.
  rewrite (block_window_eq s G k Hk).
  destruct (window_of s k) as [[[xoff yoff] wx] wy] eqn:Hw. simpl.
  assert (RasterIO_Read (band s) xoff yoff wx wy = window_read s k) as ->.
  { unfold window_read. rewrite Hw. reflexivity. }
  unfold LRUCache.put.
  pose proof (c_length s C) as Hlen. pose proof (c_capacity s C) as Hcap.
  destruct (bool_decide_reflect
    (LRUCache.capacity (lru_cache s) <= length (LRUCache.items (lru_cache s)))%nat)
    as [Hfull|Hroom].
  - destruct (last (LRUCache.items (lru_cache s))) as [[ke be]|] eqn:Hlast.
    + apply last_Some in Hlast as [kept Hitems].
      rewrite Hitems, removelast_last.
      assert (k ∉ kept.*1) as Hk'.
      { intros Hin. apply Hfresh. unfold LRUCache.keys. rewrite Hitems, fmap_app.
        apply elem_of_app. left. exact Hin. }
      rewrite (remove_absent _ _ Hk'). simpl.
      assert (valid_block s ke) as Hke.
      { apply (c_entries s C ke be). rewrite Hitems. apply elem_of_app. right.
        apply list_elem_of_here. }
      destruct (write_mode s) eqn:Hwm.
      * destruct (bool_decide_reflect (ke ∈ dirty_blocks s)) as [Hd|Hd].
        -- unfold ManagedRaster.write_block.
           match goal with
           | |- context [ManagedRaster.block_window ?t ke] =>
               rewrite (block_window_eq t (geometry_ok_shape s t eq_refl G) ke Hke);
               change (window_of t ke) with (window_of s ke)
           end.
           pose proof (loaded_flush s k kept ke be Hitems Hwm Hd) as Hl.
           unfold window_write in Hl.
           destruct (window_of s ke) as [[[xo yo] wx'] wy'].
           eexists. split; [reflexivity | exact Hl].
        -- eexists. split; [reflexivity |].
           apply (loaded_drop s k kept ke be Hitems).
           rewrite Hwm. simpl. apply bool_decide_eq_false. exact Hd.
      * eexists. split; [reflexivity |].
        apply (loaded_drop s k kept ke be Hitems). rewrite Hwm. reflexivity.
    + apply last_None in Hlast. rewrite Hlast in Hfull. simpl in Hfull. lia.
  - rewrite (remove_absent _ _ Hfresh). simpl.
    eexists. split; [reflexivity |]. apply loaded_room. lia.
Qed.

Section WriteBack.
Variable s : MR.
Hypothesis G : geometry_ok s.

(** A write-back leaves the cells of the other blocks alone. *)
Lemma pixels_window_write_other ke be x y :
  valid_block s ke -> block_index_of s x y <> ke ->
  pixels (window_write s ke be) x y = pixels (band s) x y.
Proof.
  intros Hke Hne. unfold window_write.
  destruct (window_of s ke) as [[[xoff yoff] wx] wy] eqn:Hw. simpl.
  destruct ((xoff <=? x) && (x <? xoff + wx) && (yoff <=? y) && (y <? yoff + wy)) eqn:Hin;
    [| reflexivity].
  exfalso. apply Hne.
  rewrite !andb_true_iff in Hin. destruct Hin as [[[H1 H2] H3] H4].
  apply (window_cell s G ke x y xoff yoff wx wy Hke Hw); lia.
Qed.

(** It stores each cell of the block's buffer at its place. *)
Lemma pixels_window_write_own ke be x y :
  in_bounds s x y -> block_index_of s x y = ke ->
  Z.of_nat (length be) = window_cells s ke ->
  Some (pixels (window_write s ke be) x y) = at_index be (cell_index_of s x y).
Proof.
  intros Hb Hke Hlen. subst ke.
  pose proof (block_index_valid s G x y Hb) as Hk.
  pose proof (cell_index_range s G x y Hb) as Hc.
  unfold window_write.
  destruct (window_of s (block_index_of s x y)) as [[[xoff yoff] wx] wy] eqn:Hw. simpl.
  destruct (cell_in_window s G x y _ _ _ _ Hb Hw) as [Hx Hy].
  destruct (window_cell s G _ x y _ _ _ _ Hk Hw Hx Hy) as (_ & _ & Hci).
  assert ((xoff <=? x) && (x <? xoff + wx) && (yoff <=? y) && (y <? yoff + wy) = true) as ->.
  { rewrite !andb_true_iff. lia. }
  rewrite <- Hci, at_index_lookup by lia.
  destruct (be !! Z.to_nat (cell_index_of s x y)) eqn:Hl; [reflexivity |].
  apply lookup_ge_None in Hl. lia.
Qed.

(** Reading a window after a write-back to another block. *)
Lemma window_read_after_write ke be k s' :
  valid_block s ke -> valid_block s k -> k <> ke ->
  shape s' = shape s -> band s' = window_write s ke be ->
  window_read s' k = window_read s k.
Proof.
  intros Hke Hk Hne Hshape Hband. unfold window_read.
  rewrite (window_of_shape s s' k Hshape), Hband.
  destruct (window_of s k) as [[[xoff yoff] wx] wy] eqn:Hw.
  destruct (window_dims_pos s G k _ _ _ _ Hk Hw) as [Hwx Hwy].
  apply RasterIO_Read_ext; [exact Hwx |].
  intros x y Hx Hy. apply pixels_window_write_other; [exact Hke |].
  destruct (window_cell s G k x y _ _ _ _ Hk Hw Hx Hy) as (_ & -> & _). exact Hne.
Qed.

End WriteBack.

(** ** After a load *)
Section Loaded.
Variables (s s' : MR) (k : Z).
Hypothesis W : wf s.
Hypothesis Hk : valid_block s k.
Hypothesis Hfresh : k ∉ LRUCache.keys (lru_cache s).
Hypothesis L : loaded s k s'.

Lemma loaded_shape : shape s' = shape s.
Proof. destruct L; reflexivity. Qed.

Lemma loaded_resident :
  LRUCache.assoc k (LRUCache.items (lru_cache s')) = Some (window_read s k).
Proof. destruct L; simpl; rewrite decide_True by reflexivity; reflexivity. Qed.

Lemma loaded_capacity :
  LRUCache.capacity (lru_cache s') = LRUCache.capacity (lru_cache s).
Proof. destruct L; reflexivity. Qed.

Lemma loaded_dirty_subset : dirty_blocks s' ⊆ dirty_blocks s.
Proof.
  destruct L; simpl; [reflexivity | reflexivity |].
  intros k0 Hin. apply elem_of_difference in Hin as [Hin _]. exact Hin.
Qed.

Lemma loaded_readonly :
  write_mode s = false -> dirty_blocks s' = dirty_blocks s /\ band s' = band s.
Proof. destruct L; simpl; intros; (split; reflexivity) || congruence. Qed.

(** The entries after the load: the new block, and old ones except the
    evicted one. *)
Lemma loaded_entries k' b' :
  (k', b') ∈ LRUCache.items (lru_cache s') ->
  (k' = k /\ b' = window_read s k)
  \/ (k' <> k /\ (k', b') ∈ LRUCache.items (lru_cache s)).
Proof.
  assert (forall e, e ∈ LRUCache.items (lru_cache s) -> e.1 <> k) as Hne.
  { intros [k0 b0] Hin Heq. simpl in Heq. subst k0. apply Hfresh.
    apply (list_elem_of_fmap_2 fst) in Hin. exact Hin. }
  destruct L as [Hroom | kept ke be Hitems Hflag | kept ke be Hitems Hwm Hd]; simpl;
    rewrite elem_of_cons; (intros [Heq | Hin]; [injection Heq as -> ->; auto |]);
    right.
  - split; [apply (Hne _ Hin) | exact Hin].
  - assert ((k', b') ∈ LRUCache.items (lru_cache s)) as Hin'
      by (rewrite Hitems; apply elem_of_app; auto).
    split; [apply (Hne _ Hin') | exact Hin'].
  - assert ((k', b') ∈ LRUCache.items (lru_cache s)) as Hin'
      by (rewrite Hitems; apply elem_of_app; auto).
    split; [apply (Hne _ Hin') | exact Hin'].
Qed.

Lemma loaded_wf : wf s'.
Proof.
  destruct W as [G C]. pose proof loaded_shape as Hs. split.
  - apply (geometry_ok_shape s s' Hs G).
  - assert (forall k0 b0, (k0, b0) ∈ LRUCache.items (lru_cache s') ->
        valid_block s' k0 /\ Z.of_nat (length b0) = window_cells s' k0) as Hent.
    { intros k0 b0 Hin.
      assert (valid_block s k0 /\ Z.of_nat (length b0) = window_cells s k0) as Hold.
      { destruct (loaded_entries k0 b0 Hin) as [[-> ->] | [_ Hin']].
        - split; [exact Hk | apply (length_window_read s G k Hk)].
        - apply (c_entries s C k0 b0 Hin'). }
      unfold valid_block, window_cells in *. rewrite (window_of_shape s s' k0 Hs).
      unfold shape in Hs. injection Hs as _ _ _ _ _ _ _ _ _ Hnx Hny _ _.
      rewrite Hnx, Hny. exact Hold. }
    pose proof (c_nodup s C) as Hnd. pose proof (c_length s C) as Hlen.
    pose proof (c_capacity s C) as Hcap. unfold LRUCache.keys in *.
    pose proof (c_blocks s C) as Hblocks. pose proof (c_cells s C) as Hcells.
    destruct L as [Hroom | kept ke be Hitems Hflag | kept ke be Hitems Hwm Hd];
      constructor; simpl in *; try assumption; try lia.
    + apply NoDup_cons. split; assumption.
    + rewrite Hitems, fmap_app in Hnd, Hfresh. apply NoDup_app in Hnd as (Hnd & _ & _).
      apply NoDup_cons. split; [| exact Hnd]. intros Hin. apply Hfresh, elem_of_app. auto.
    + rewrite Hitems, length_app in Hlen. simpl in Hlen. lia.
    + rewrite Hitems, fmap_app in Hnd, Hfresh. apply NoDup_app in Hnd as (Hnd & _ & _).
      apply NoDup_cons. split; [| exact Hnd]. intros Hin. apply Hfresh, elem_of_app. auto.
    + rewrite Hitems, length_app in Hlen. simpl in Hlen. lia.
Qed.

Lemma loaded_dirty_resident :
  (write_mode s = false -> dirty_blocks s = ∅) ->
  dirty_resident s -> dirty_resident s'.
Proof.
  unfold dirty_resident, LRUCache.keys. intros Hro Hdr k0 Hin.
  destruct L as [Hroom | kept ke be Hitems Hflag | kept ke be Hitems Hwm Hd]; simpl in *.
  - apply list_elem_of_further, Hdr, Hin.
  - specialize (Hdr k0 Hin). rewrite Hitems, fmap_app in Hdr.
    apply elem_of_app in Hdr as [Hdr | Hdr]; [apply list_elem_of_further, Hdr |].
    simpl in Hdr. apply list_elem_of_singleton in Hdr. subst k0.
    destruct (write_mode s); simpl in Hflag;
      [apply bool_decide_eq_false in Hflag; contradiction |].
    rewrite Hro in Hin by reflexivity. set_solver.
  - apply elem_of_difference in Hin as [Hin Hne].
    specialize (Hdr k0 Hin). rewrite Hitems, fmap_app in Hdr.
    apply elem_of_app in Hdr as [Hdr | Hdr]; [apply list_elem_of_further, Hdr |].
    simpl in Hdr. apply list_elem_of_singleton in Hdr. set_solver.
Qed.

Lemma assoc_kept kept ke be k0 :
  LRUCache.items (lru_cache s) = kept ++ [(ke, be)] ->
  LRUCache.assoc k0 kept
  = if decide (k0 = ke) then None else LRUCache.assoc k0 (LRUCache.items (lru_cache s)).
Proof.
  intros Hitems. destruct W as [_ C]. pose proof (c_nodup s C) as Hnd.
  unfold LRUCache.keys in Hnd. rewrite Hitems, fmap_app in Hnd.
  apply NoDup_app in Hnd as (Hnd1 & Hdisj & _).
  destruct (decide (k0 = ke)) as [->|Hne].
  - apply assoc_None. intros Hin. apply (Hdisj ke Hin). apply list_elem_of_here.
  - destruct (LRUCache.assoc k0 kept) as [b0|] eqn:Ha.
    + symmetry. apply elem_assoc; [exact (c_nodup s C) |].
      rewrite Hitems. apply elem_of_app. left. apply assoc_elem, Ha.
    + symmetry. apply assoc_None. rewrite Hitems, fmap_app. intros Hin.
      apply elem_of_app in Hin as [Hin | Hin].
      * apply assoc_None in Ha. contradiction.
      * simpl in Hin. apply list_elem_of_singleton in Hin. contradiction.
Qed.

Lemma assoc_evicted kept ke be :
  LRUCache.items (lru_cache s) = kept ++ [(ke, be)] ->
  LRUCache.assoc ke (LRUCache.items (lru_cache s)) = Some be /\ ke <> k
  /\ valid_block s ke /\ Z.of_nat (length be) = window_cells s ke.
Proof.
  intros Hitems. destruct W as [_ C].
  assert ((ke, be) ∈ LRUCache.items (lru_cache s)) as Hin.
  { rewrite Hitems. apply elem_of_app. right. apply list_elem_of_here. }
  split; [apply elem_assoc; [exact (c_nodup s C) | exact Hin] |].
  split; [| apply (c_entries s C ke be Hin)].
  intros ->. apply Hfresh. apply (list_elem_of_fmap_2 fst) in Hin. exact Hin.
Qed.

(** A load changes no cell of the raster. *)
Lemma loaded_peek x y : coherent s -> in_bounds s x y -> peek s' x y = peek s x y.
Proof.
  intros Hco Hb. destruct W as [G C].
  pose proof (window_read_cell s G x y Hb) as Hcell.
  pose proof (proj2 (assoc_None _ _) Hfresh) as Hnone.
  destruct L as [Hroom | kept ke be Hitems Hflag | kept ke be Hitems Hwm Hd];
    try remember (window_write s ke be) as wb eqn:Hwb;
    unfold peek; simpl;
    change (block_index_of _ x y) with (block_index_of s x y);
    change (cell_index_of _ x y) with (cell_index_of s x y).
  - destruct (decide (k = block_index_of s x y)) as [->|Hne]; [| reflexivity].
    rewrite Hnone. exact Hcell.
  - destruct (decide (k = block_index_of s x y)) as [->|Hne].
    { rewrite Hnone. exact Hcell. }
    rewrite (assoc_kept kept ke be _ Hitems).
    destruct (decide (block_index_of s x y = ke)) as [Heq|]; [| reflexivity].
    destruct (assoc_evicted kept ke be Hitems) as (Ha & _ & _ & _).
    rewrite Heq, Ha.
    rewrite (Hco ke be (assoc_elem _ _ _ Ha) Hflag), <- Heq. symmetry. exact Hcell.
  - destruct (decide (k = block_index_of s x y)) as [->|Hne].
    { rewrite Hnone. exact Hcell. }
    destruct (assoc_evicted kept ke be Hitems) as (Ha & _ & Hke & Hlen).
    rewrite (assoc_kept kept ke be _ Hitems).
    destruct (decide (block_index_of s x y = ke)) as [Heq|Hne'].
    + rewrite Heq, Ha, Hwb. apply (pixels_window_write_own s G ke be x y Hb Heq Hlen).
    + rewrite Hwb, (pixels_window_write_other s G ke be x y Hke Hne'). reflexivity.
Qed.

(** A load keeps the cache coherent with the band. *)
Lemma loaded_coherent : coherent s -> coherent s'.
Proof.
  intros Hco k0 b0 Hin Hflag. destruct W as [G C].
  destruct (loaded_entries k0 b0 Hin) as [[-> ->] | [Hne Hin']].
  - destruct L as [Hroom | kept ke be Hitems Hflag' | kept ke be Hitems Hwm Hd];
      try reflexivity.
    destruct (assoc_evicted kept ke be Hitems) as (_ & Hke & Hvalid & _).
    symmetry.
    match goal with
    | |- window_read ?t k = _ =>
        apply (window_read_after_write s G ke be k t Hvalid Hk (not_eq_sym Hke)
                 eq_refl eq_refl)
    end.
  - destruct L as [Hroom | kept ke be Hitems Hflag' | kept ke be Hitems Hwm Hd].
    + apply (Hco k0 b0 Hin' Hflag).
    + apply (Hco k0 b0 Hin' Hflag).
    + destruct (assoc_evicted kept ke be Hitems) as (_ & Hke & Hvalid & _).
      assert (k0 <> ke) as Hk0.
      { simpl in Hin. apply elem_of_cons in Hin as [Heq | Hin];
          [injection Heq as -> _; contradiction |].
        intros ->. pose proof (assoc_kept kept ke be ke Hitems) as Ha.
        rewrite decide_True in Ha by reflexivity. apply assoc_None in Ha.
        apply Ha. apply (list_elem_of_fmap_2 fst) in Hin. exact Hin. }
      match goal with
      | |- _ = window_read ?t k0 =>
          rewrite (window_read_after_write s G ke be k0 t Hvalid
                     (proj1 (c_entries s C k0 b0 Hin')) Hk0 eq_refl eq_refl)
      end.
      apply (Hco k0 b0 Hin'). simpl in Hflag. rewrite Hwm in *. simpl in *.
      apply bool_decide_eq_false in Hflag. apply bool_decide_eq_false.
      intros Hd0. apply Hflag. apply elem_of_difference. split; [exact Hd0 |].
      intros Hs. apply elem_of_singleton in Hs. contradiction.
Qed.

End Loaded.

(** ** The accessors *)

Lemma preserved_refl s : wf s -> preserved s s.
Proof. intros. constructor; auto. Qed.

Lemma preserved_trans s1 s2 s3 : preserved s1 s2 -> preserved s2 s3 -> preserved s1 s3.
Proof.
  intros [Hs1 Hw1 Hd1 Hr1] [Hs2 Hw2 Hd2 Hr2]. constructor; auto.
  - congruence.
  - intros Hro. destruct (Hr1 Hro) as [<- <-]. apply Hr2.
    unfold shape in Hs1. injection Hs1 as _ _ _ _ _ _ _ _ _ _ _ -> _. exact Hro.
Qed.

Lemma in_bounds_shape s s' x y : shape s' = shape s -> in_bounds s' x y <-> in_bounds s x y.
Proof.
  unfold shape, in_bounds. intros Hs.
  injection Hs as _ _ _ _ _ _ _ -> -> _ _ _ _. reflexivity.
Qed.

Lemma block_index_of_shape s s' x y :
  shape s' = shape s -> block_index_of s' x y = block_index_of s x y.
Proof.
  unfold shape, block_index_of. intros Hs.
  injection Hs as _ -> -> _ _ _ _ _ _ -> _ _ _. reflexivity.
Qed.

Lemma cell_index_of_shape s s' x y :
  shape s' = shape s -> cell_index_of s' x y = cell_index_of s x y.
Proof.
  unfold shape, cell_index_of. intros Hs.
  injection Hs as _ -> -> _ _ _ _ -> _ _ _ _ _. reflexivity.
Qed.

Lemma valid_block_shape s s' k : shape s' = shape s -> valid_block s' k <-> valid_block s k.
Proof.
  unfold shape, valid_block. intros Hs.
  injection Hs as _ _ _ _ _ _ _ _ _ -> -> _ _. reflexivity.
Qed.

Lemma window_cells_shape s s' k : shape s' = shape s -> window_cells s' k = window_cells s k.
Proof. intros Hs. unfold window_cells. rewrite (window_of_shape s s' k Hs). reflexivity. Qed.

Lemma loaded_preserved s s' k :
  wf s -> valid_block s k -> k ∉ LRUCache.keys (lru_cache s) -> loaded s k s' ->
  preserved s s'.
Proof.
  intros W Hk Hfresh L. constructor.
  - apply (loaded_shape s s' k L).
  - apply (loaded_wf s s' k W Hk Hfresh L).
  - intros [Hdr Hro]. split.
    + eapply loaded_dirty_resident; eassumption.
    + intros Hwm. pose proof (loaded_shape s s' k L) as Hs. unfold shape in Hs.
      injection Hs as _ _ _ _ _ _ _ _ _ _ _ Hwm' _. rewrite Hwm' in Hwm.
      destruct (loaded_readonly s s' k L Hwm) as [-> _]. auto.
  - apply (loaded_readonly s s' k L).
Qed.

(** The block is resident after the first step of an accessor. *)
Lemma ensure_spec s k :
  wf s -> valid_block s k ->
  exists s' buf, ensure s k = Some s' /\ preserved s s'
    /\ LRUCache.assoc k (LRUCache.items (lru_cache s')) = Some buf
    /\ (coherent s -> coherent s' /\ same_cells s s')
    /\ (LRUCache.assoc k (LRUCache.items (lru_cache s)) = None ->
        buf = window_read s k)
    /\ (forall b, LRUCache.assoc k (LRUCache.items (lru_cache s)) = Some b -> buf = b)
    /\ dirty_blocks s' ⊆ dirty_blocks s.
Proof.
  intros W Hk. unfold ensure, LRUCache.exist.
  destruct (bool_decide_reflect (k ∈ LRUCache.keys (lru_cache s))) as [Hin|Hfresh].
  - apply assoc_is_Some in Hin as [buf Hbuf].
    exists s, buf. split; [reflexivity |]. split; [apply preserved_refl, W |].
    split; [exact Hbuf |]. split; [intros; split; [assumption | intros ? ? ?; reflexivity] |].
    split; [congruence |]. split; [congruence | reflexivity].
  - destruct (load_block_loaded s k W Hk Hfresh) as (s' & Hload & L).
    exists s', (window_read s k). split; [exact Hload |].
    split; [apply (loaded_preserved s s' k W Hk Hfresh L) |].
    split; [apply (loaded_resident s s' k L) |].
    split; [| split; [reflexivity |]].
    + intros Hco. split.
      * apply (loaded_coherent s s' k W Hk Hfresh L Hco).
      * intros x y Hb. apply (loaded_peek s s' k W Hk Hfresh L x y Hco Hb).
    + split; [intros b Hb; apply assoc_None in Hfresh; congruence |].
      apply (loaded_dirty_subset s s' k L).
Qed.

(** Replacing the cache by one with the same keys and well-sized buffers. *)
Lemma with_cache_preserved s c :
  wf s ->
  LRUCache.capacity c = LRUCache.capacity (lru_cache s) ->
  NoDup (LRUCache.keys c) ->
  length (LRUCache.items c) = length (LRUCache.items (lru_cache s)) ->
  (forall k b, (k, b) ∈ LRUCache.items c ->
     valid_block s k /\ Z.of_nat (length b) = window_cells s k) ->
  (forall k, k ∈ LRUCache.keys (lru_cache s) -> k ∈ LRUCache.keys c) ->
  preserved s (ManagedRaster.with_cache c s).
Proof.
  intros [G C] Hcap Hnd Hlen Hent Hkeys. constructor.
  - reflexivity.
  - split; [apply (geometry_ok_shape s (ManagedRaster.with_cache c s) eq_refl G) |].
    destruct C as [Cnd Ccap Clen Cent Cblocks Ccells]. constructor; simpl.
    + exact Hnd.
    + rewrite Hcap. exact Ccap.
    + rewrite Hcap, Hlen. exact Clen.
    + exact Hent.
    + exact Cblocks.
    + exact Ccells.
  - intros [Hdr Hro]. split; [| exact Hro].
    intros k Hk. apply Hkeys, Hdr, Hk.
  - intros _. split; reflexivity.
Qed.

Section Touch.
Variables (l : list (Z * LRUCache.Buffer)) (k : Z) (buf : LRUCache.Buffer).
Hypothesis Hnd : NoDup l.*1.
Hypothesis Ha : LRUCache.assoc k l = Some buf.

Lemma assoc_touch k' :
  LRUCache.assoc k' ((k, buf) :: LRUCache.remove k l) = LRUCache.assoc k' l.
Proof.
  simpl. destruct (decide (k = k')) as [<-|Hne]; [congruence |].
  rewrite assoc_remove, decide_False by congruence. reflexivity.
Qed.

Lemma NoDup_touch : NoDup ((k, buf) :: LRUCache.remove k l).*1.
Proof.
  simpl. apply NoDup_cons. split; [| apply NoDup_remove, Hnd].
  rewrite keys_remove. tauto.
Qed.

Lemma length_touch : length ((k, buf) :: LRUCache.remove k l) = length l.
Proof.
  simpl. apply length_remove_present; [exact Hnd |].
  apply assoc_is_Some. rewrite Ha. eauto.
Qed.

Lemma elem_touch k' b' : (k', b') ∈ (k, buf) :: LRUCache.remove k l <-> (k', b') ∈ l.
Proof.
  rewrite elem_of_cons, elem_remove. split.
  - intros [Heq | [Hin _]]; [| exact Hin]. injection Heq as -> ->. apply assoc_elem, Ha.
  - intros Hin. destruct (decide (k' = k)) as [->|]; [left | right; auto].
    f_equal. pose proof (elem_assoc l k b' Hnd Hin). congruence.
Qed.

Lemma keys_touch k' : k' ∈ ((k, buf) :: LRUCache.remove k l).*1 <-> k' ∈ l.*1.
Proof.
  rewrite <- !assoc_is_Some, assoc_touch. reflexivity.
Qed.

End Touch.

Lemma peek_with_cache s c x y :
  (forall k, LRUCache.assoc k (LRUCache.items c)
             = LRUCache.assoc k (LRUCache.items (lru_cache s))) ->
  peek (ManagedRaster.with_cache c s) x y = peek s x y.
Proof.
  intros H. unfold peek.
  change (lru_cache (ManagedRaster.with_cache c s)) with c. rewrite H. reflexivity.
Qed.

(** [get] is defined on every cell of the raster, returns the value the
    raster holds there, and keeps the raster well formed. *)
Lemma get_spec s x y :
  wf s -> in_bounds s x y ->
  exists s' v, ManagedRaster.get s x y = Some (s', v)
    /\ preserved s s' /\ peek s x y = Some v
    /\ (coherent s -> coherent s' /\ same_cells s s')
    /\ dirty_blocks s' ⊆ dirty_blocks s.
Proof.
  intros W Hb. pose proof W as [G C]. pose proof Hb as [Hx Hy].
  pose proof (block_index_valid s G x y Hb) as Hk.
  destruct (ensure_spec s _ W Hk) as (s1 & buf & He & P & Ha & Hco & Hnew & Hold & Hsub).
  pose proof (p_shape s s1 P) as Hs. pose proof (p_wf s s1 P) as [G1 C1].
  pose proof (proj2 (in_bounds_shape s s1 x y Hs) Hb) as Hb1.
  pose proof (cell_index_range s1 G1 x y Hb1) as Hrange.
  rewrite (block_index_of_shape s s1 x y Hs) in Hrange.
  destruct (c_entries s1 C1 _ buf (assoc_elem _ _ _ Ha)) as [_ Hlen].
  rewrite <- Hlen in Hrange.
  destruct (proj2 (at_index_is_Some buf _) Hrange) as [v Hv].
  exists (ManagedRaster.with_cache
            (cache_with s1 ((block_index_of s x y, buf)
               :: LRUCache.remove (block_index_of s x y) (LRUCache.items (lru_cache s1)))) s1), v.
  split; [| split; [| split; [| split; [| exact Hsub]]]].
  - unfold ManagedRaster.get. rewrite (g_open s G).
    rewrite (block_col_int s G C x y Hb), (block_row_int s G C x y Hb).
    cbn [mbind option_bind].
    rewrite (block_index_int s G C x y Hb). cbn [mbind option_bind].
    change (if LRUCache.exist ?k (lru_cache s) then Some s
            else ManagedRaster._load_block s ?k)
      with (ensure s (block_index_of s x y)).
    rewrite He. cbn [mbind option_bind]. unfold LRUCache.get. rewrite Ha.
    cbn [mbind option_bind].
    rewrite <- (block_index_of_shape s s1 x y Hs).
    rewrite (width_at_block_index s1 G1 x y Hb1). cbn [mbind option_bind].
    rewrite (land_xmod s1 G1 x), (land_ymod s1 G1 y) by lia.
    change (y `mod` block_ysize s1
            * Z.min (block_xsize s1)
                    (raster_x_size s1 - x `div` block_xsize s1 * block_xsize s1)
            + x `mod` block_xsize s1)
      with (cell_index_of s1 x y).
    rewrite (cell_index_int s1 G1 C1 x y Hb1). cbn [mbind option_bind].
    rewrite Hv. reflexivity.
  - apply (preserved_trans s s1 _ P).
    apply with_cache_preserved; [split; assumption | reflexivity | | | |].
    + apply NoDup_touch; solve [apply C1 | exact Ha].
    + apply length_touch; solve [apply C1 | exact Ha].
    + intros k b Hin. apply elem_touch in Hin; [| apply C1 | exact Ha].
      apply (c_entries s1 C1 k b Hin).
    + intros k Hin. apply keys_touch; [exact Ha | exact Hin].
  - unfold peek. destruct (LRUCache.assoc _ (LRUCache.items (lru_cache s))) as [b|] eqn:Hb0.
    + rewrite <- (Hold b eq_refl), <- (cell_index_of_shape s s1 x y Hs). exact Hv.
    + rewrite (Hnew eq_refl) in Hv. rewrite <- Hv, (cell_index_of_shape s s1 x y Hs).
      symmetry. apply (window_read_cell s G x y Hb).
  - intros Hc. destruct (Hco Hc) as [Hc1 Hsame]. split.
    + intros k b Hin Hflag. simpl in Hin.
      apply elem_touch in Hin; [| apply C1 | exact Ha].
      apply (Hc1 k b Hin Hflag).
    + intros x' y' Hb'. rewrite <- (Hsame x' y' Hb'). apply peek_with_cache.
      intros k. apply assoc_touch, Ha.
Qed.

Lemma with_dirty_preserved s k :
  wf s -> write_mode s = true -> k ∈ LRUCache.keys (lru_cache s) ->
  preserved s (ManagedRaster.with_dirty ({[k]} ∪ dirty_blocks s) s).
Proof.
  intros [G C] Hwm Hk. constructor.
  - reflexivity.
  - split; [apply (geometry_ok_shape s (ManagedRaster.with_dirty _ s) eq_refl G) |].
    destruct C. constructor; assumption.
  - intros [Hdr Hro]. split.
    + intros k' Hin. simpl in Hin. apply elem_of_union in Hin as [Hin | Hin].
      * apply elem_of_singleton in Hin. subst k'. exact Hk.
      * apply Hdr, Hin.
    + simpl. congruence.
  - congruence.
Qed.

(** [set] is defined on every cell of the raster, and the raster then holds
    the value there. *)
Lemma set_spec s x y v :
  wf s -> in_bounds s x y ->
  exists s', ManagedRaster.set s x y v = Some s'
    /\ preserved s s' /\ peek s' x y = Some v
    /\ (write_mode s = true -> coherent s -> coherent s').
Proof.
  intros W Hb. pose proof W as [G C]. pose proof Hb as [Hx Hy].
  pose proof (block_index_valid s G x y Hb) as Hk.
  destruct (ensure_spec s _ W Hk) as (s1 & buf & He & P & Ha & Hco & _ & _).
  pose proof (p_shape s s1 P) as Hs. pose proof (p_wf s s1 P) as W1.
  pose proof W1 as [G1 C1].
  pose proof (proj2 (in_bounds_shape s s1 x y Hs) Hb) as Hb1.
  pose proof (cell_index_range s1 G1 x y Hb1) as Hrange.
  pose proof (block_index_of_shape s s1 x y Hs) as Hbi.
  destruct (c_entries s1 C1 _ buf (assoc_elem _ _ _ Ha)) as [_ Hlen].
  rewrite Hbi, <- Hlen in Hrange.
  destruct (proj2 (at_index_is_Some buf _) Hrange) as [v0 Hv0].
  set (k := block_index_of s x y) in *.
  set (buf' := <[Z.to_nat (cell_index_of s1 x y) := v]> buf).
  set (c2 := LRUCache.store k buf'
               (cache_with s1 ((k, buf) :: LRUCache.remove k (LRUCache.items (lru_cache s1))))).
  set (s2 := ManagedRaster.with_cache c2 s1).
  assert (preserved s1 s2) as P2.
  { apply with_cache_preserved; [exact W1 | reflexivity | | | |];
      unfold c2, LRUCache.store, cache_with, LRUCache.keys;
      cbn [LRUCache.items LRUCache.capacity].
    - rewrite keys_store. apply NoDup_touch; solve [apply C1 | exact Ha].
    - rewrite length_fmap. apply length_touch; solve [apply C1 | exact Ha].
    - intros k0 b0 Hin. apply elem_store in Hin as [[-> ->] | [Hne Hin]].
      + split; [apply (valid_block_shape s s1 k Hs), Hk |].
        transitivity (Z.of_nat (length buf)); [f_equal; apply length_insert | exact Hlen].
      + apply elem_touch in Hin; [| apply C1 | exact Ha].
        apply (c_entries s1 C1 k0 b0 Hin).
    - intros k0 Hin. rewrite keys_store. apply keys_touch; [exact Ha | exact Hin]. }
  assert (LRUCache.assoc k (LRUCache.items c2) = Some buf') as Ha2.
  { unfold c2, LRUCache.store, cache_with. cbn [LRUCache.items].
    rewrite assoc_store, decide_True by reflexivity.
    rewrite assoc_touch by exact Ha. rewrite Ha. reflexivity. }
  assert (k ∈ LRUCache.keys (lru_cache s2)) as Hk2.
  { apply assoc_is_Some. change (lru_cache s2) with c2. rewrite Ha2. eauto. }
  assert (write_mode s1 = write_mode s) as Hwm1.
  { unfold shape in Hs. injection Hs as _ _ _ _ _ _ _ _ _ _ _ Hwm _. exact Hwm. }
  assert (write_mode s2 = write_mode s) as Hwm2 by exact Hwm1.
  set (s3 := if write_mode s2
             then if bool_decide (k ∈ dirty_blocks s2) then s2
                  else ManagedRaster.with_dirty ({[k]} ∪ dirty_blocks s2) s2
             else s2).
  assert (preserved s2 s3 /\ lru_cache s3 = c2 /\ shape s3 = shape s2
          /\ band s3 = band s1
          /\ (write_mode s = true -> k ∈ dirty_blocks s3 /\ dirty_blocks s1 ⊆ dirty_blocks s3))
    as (P3 & Hc3 & Hs3 & Hband3 & Hd3).
  { unfold s3. destruct (write_mode s2) eqn:Hwm.
    - destruct (bool_decide_reflect (k ∈ dirty_blocks s2)) as [Hd|Hd].
      + split; [apply preserved_refl, (p_wf s1 s2 P2) |].
        do 3 (split; [reflexivity |]). intros _. split; [exact Hd | reflexivity].
      + split; [apply with_dirty_preserved; auto; apply (p_wf s1 s2 P2) |].
        do 3 (split; [reflexivity |]). intros _. simpl. split.
        * apply elem_of_union. left. apply elem_of_singleton. reflexivity.
        * apply union_subseteq_r.
    - split; [apply preserved_refl, (p_wf s1 s2 P2) |].
      do 3 (split; [reflexivity |]). congruence. }
  exists s3. split; [| split; [| split]].
  - unfold ManagedRaster.set. rewrite (g_open s G).
    rewrite (block_col_int s G C x y Hb), (block_row_int s G C x y Hb).
    cbn [mbind option_bind].
    rewrite (block_index_int s G C x y Hb). cbn [mbind option_bind].
    change (if LRUCache.exist ?k (lru_cache s) then Some s
            else ManagedRaster._load_block s ?k)
      with (ensure s (block_index_of s x y)).
    fold k.
    rewrite He. cbn [mbind option_bind]. unfold k at 1. rewrite <- Hbi.
    rewrite (width_at_block_index s1 G1 x y Hb1). cbn [mbind option_bind].
    rewrite Hbi. fold k.
    rewrite (land_xmod s1 G1 x), (land_ymod s1 G1 y) by lia.
    change (y `mod` block_ysize s1
            * Z.min (block_xsize s1)
                    (raster_x_size s1 - x `div` block_xsize s1 * block_xsize s1)
            + x `mod` block_xsize s1)
      with (cell_index_of s1 x y).
    rewrite (cell_index_int s1 G1 C1 x y Hb1). cbn [mbind option_bind].
    unfold LRUCache.get. rewrite Ha. cbn [mbind option_bind].
    rewrite Hv0. reflexivity.
  - apply (preserved_trans s s1 _ P), (preserved_trans s1 s2 _ P2), P3.
  - unfold peek. rewrite Hc3.
    rewrite (block_index_of_shape s2 s3 x y Hs3), (cell_index_of_shape s2 s3 x y Hs3).
    change (block_index_of s2 x y) with (block_index_of s1 x y).
    change (cell_index_of s2 x y) with (cell_index_of s1 x y).
    rewrite Hbi. fold k. rewrite Ha2. apply at_index_insert_eq. exact Hrange.
  - intros Hwm Hc. destruct (Hco Hc) as [Hc1 _]. destruct (Hd3 Hwm) as [Hkd Hsub].
    intros k0 b0 Hin Hflag. rewrite Hc3 in Hin.
    assert (write_mode s3 = true) as Hwm3.
    { unfold shape in Hs3. injection Hs3 as _ _ _ _ _ _ _ _ _ _ _ Hw _.
      rewrite Hw. change (write_mode s2) with (write_mode s1). congruence. }
    rewrite Hwm3 in Hflag. simpl in Hflag. apply bool_decide_eq_false in Hflag.
    unfold c2, LRUCache.store, cache_with in Hin. cbn [LRUCache.items] in Hin.
    apply elem_store in Hin as [[-> ->] | [Hne Hin]]; [contradiction |].
    apply elem_touch in Hin; [| apply C1 | exact Ha].
    assert (window_read s3 k0 = window_read s1 k0) as ->.
    { unfold window_read. rewrite Hband3.
      rewrite (window_of_shape s1 s3 k0) by (rewrite Hs3; reflexivity). reflexivity. }
    apply (Hc1 k0 b0 Hin). rewrite Hwm1, Hwm.
    simpl. apply bool_decide_eq_false. intros Hd. apply Hflag, Hsub, Hd.
Qed.

(** Beyond [int] the accessors are undefined: where the grid has more blocks
    than [INT_MAX], a cell whose block index [int] cannot hold has no defined
    [get] or [set]. *)
Lemma accessors_beyond_int s x y v :
  geometry_ok s -> in_bounds s x y -> INT_MAX < block_index_of s x y ->
  ManagedRaster.get s x y = None /\ ManagedRaster.set s x y v = None.
Proof.
  intros G [Hx Hy] Hk. unfold ManagedRaster.get, ManagedRaster.set.
  rewrite (g_open s G), (cdiv_xsize s G x), (cdiv_ysize s G y) by lia.
  cbn [mbind option_bind].
  destruct (as_int (x `div` block_xsize s)) as [bx|] eqn:Ex; [| split; reflexivity].
  apply as_int_Some in Ex as [-> _]. cbn [mbind option_bind].
  destruct (as_int (y `div` block_ysize s)) as [by_|] eqn:Ey; [| split; reflexivity].
  apply as_int_Some in Ey as [-> _]. cbn [mbind option_bind].
  destruct (as_int (y `div` block_ysize s * block_nx s)) as [rows|] eqn:Er;
    [| split; reflexivity].
  apply as_int_Some in Er as [-> _]. cbn [mbind option_bind].
  unfold block_index_of in Hk. rewrite (as_int_above _ Hk). split; reflexivity.
Qed.

(** ** The constructor *)

(** The test [(n & (n - 1)) != 0] on a positive size. *)
Lemma land_pred_pow2 n : 0 < n -> Z.land n (n - 1) = 0 -> n = 2 ^ Z.log2 n.
Proof.
  intros Hn Hland. pose proof (Z.log2_spec n Hn) as [Hlo Hhi].
  pose proof (Z.log2_nonneg n) as Hk.
  destruct (Z.eq_dec n (2 ^ Z.log2 n)) as [|Hne]; [assumption | exfalso].
  assert (Z.log2 (n - 1) = Z.log2 n) as Hlog.
  { apply Z.log2_unique; [exact Hk | lia]. }
  assert (Z.testbit (Z.land n (n - 1)) (Z.log2 n) = true) as Hbit.
  { rewrite Z.land_spec, Z.bit_log2 by lia. rewrite <- Hlog.
    rewrite Z.bit_log2; [reflexivity |].
    pose proof (Z.pow_pos_nonneg 2 (Z.log2 n)). lia. }
  rewrite Hland, Z.bits_0 in Hbit. discriminate.
Qed.

Lemma pow2_land_pred k : 0 <= k -> Z.land (2 ^ k) (2 ^ k - 1) = 0.
Proof.
  intros Hk. rewrite Z.sub_1_r, <- Z.ones_equiv, Z.land_ones by exact Hk.
  apply Z.mod_same. pose proof (Z.pow_pos_nonneg 2 k). lia.
Qed.

Lemma bind_singleton {A B} (g : A -> B) (l : list A) : (l ≫= fun a => [g a]) = g <$> l.
Proof.
  induction l as [|a l IH]; [reflexivity |].
  rewrite fmap_cons, <- IH. reflexivity.
Qed.

Lemma bind_join_fmap {A B} (f : A -> list B) (l : list A) : l ≫= f = mjoin (f <$> l).
Proof. rewrite list_join_bind, list_fmap_bind. reflexivity. Qed.

(** The width table holds the actual width of block [(bx, by_)] at index
    [by_ * block_nx + bx]. *)
Lemma fill_actualBlockWidths_lookup ds b nx ny bx by_ :
  0 <= bx < nx -> 0 <= by_ < ny ->
  at_index (ManagedRaster.fill_actualBlockWidths ds b nx ny) (by_ * nx + bx)
  = Some (GetActualBlockSize ds b bx by_).1.
Proof.
  intros Hx Hy. rewrite at_index_lookup by nia.
  unfold ManagedRaster.fill_actualBlockWidths. rewrite bind_join_fmap.
  replace (Z.to_nat (by_ * nx + bx)) with (Z.to_nat by_ * Z.to_nat nx + Z.to_nat bx)%nat
    by nia.
  apply (join_lookup_Some_same_length' (Z.to_nat nx)).
  - apply Forall_fmap, Forall_forall. intros y _. simpl.
    rewrite bind_singleton, length_fmap, length_seqZ. reflexivity.
  - lia.
  - exists ((fun x => (GetActualBlockSize ds b x by_).1) <$> seqZ 0 nx). split.
    + rewrite list_lookup_fmap.
      assert (seqZ 0 ny !! Z.to_nat by_ = Some by_) as -> by (apply lookup_seqZ; lia).
      simpl. rewrite bind_singleton. reflexivity.
    + rewrite list_lookup_fmap.
      assert (seqZ 0 nx !! Z.to_nat bx = Some bx) as -> by (apply lookup_seqZ; lia).
      reflexivity.
Qed.

(** A cache with no entry is coherent with any band. *)
Lemma empty_cache_coherent s : LRUCache.items (lru_cache s) = [] -> coherent s.
Proof. intros He k buf Hin. rewrite He in Hin. apply elem_of_nil in Hin. contradiction. Qed.

(** What construction establishes. *)
Lemma new_spec fs path band_id wm s :
  ManagedRaster.new fs path band_id wm = Constructed s ->
  0 < nRasterXSize (dataset s) -> 0 < nRasterYSize (dataset s) ->
  (block_nx s * block_ny s <=? INT_MAX) = true ->
  (block_xsize s * block_ysize s <=? INT_MAX) = true ->
  wf s /\ coherent s /\ dirty_ok s /\ dirty_blocks s = ∅
  /\ LRUCache.items (lru_cache s) = []
  /\ write_mode s = wm /\ eAccess (dataset s) = GA_Update.
Proof.
  unfold ManagedRaster.new, GDALOpen.
  destruct (fs path) as [f|]; [| discriminate]. simpl.
  destruct ((band_id <? 1) || _); [discriminate |].
  destruct (GetRasterBand _ band_id) as [b|]; [| discriminate].
  unfold GetBlockSize.
  destruct (GetNoDataValue b) as [nd hnd].
  destruct (negb (Z.land (nBlockXSize b) (nBlockXSize b - 1) =? 0)
            || negb (Z.land (nBlockYSize b) (nBlockYSize b - 1) =? 0)) eqn:Hcheck;
    [discriminate |].
  apply orb_false_iff in Hcheck as [Hcx Hcy].
  apply negb_false_iff, Z.eqb_eq in Hcx. apply negb_false_iff, Z.eqb_eq in Hcy.
  unfold log2_int, cdiv.
  destruct (Z.ltb_spec 0 (nBlockXSize b)) as [Hpx|]; [| discriminate].
  destruct (Z.ltb_spec 0 (nBlockYSize b)) as [Hpy|]; [| discriminate].
  destruct (Z.eqb_spec (nBlockXSize b) 0); [lia |].
  destruct (Z.eqb_spec (nBlockYSize b) 0); [lia |].
  intros Heq. injection Heq as <-. simpl. intros HW HH Hblocks Hcells.
  apply Z.leb_le in Hblocks, Hcells.
  assert (LRUCache.keys (LRUCache.empty MANAGED_RASTER_N_BLOCKS) = []) as Hkeys
    by reflexivity.
  split; [split |].
  - constructor; simpl; try lia; try reflexivity.
    + apply Z.log2_nonneg.
    + apply Z.log2_nonneg.
    + apply land_pred_pow2; assumption.
    + apply land_pred_pow2; assumption.
    + intros bx by_ Hbx Hby. rewrite fill_actualBlockWidths_lookup by assumption.
      reflexivity.
  - constructor; simpl.
    + apply NoDup_nil_2.
    + vm_compute. lia.
    + lia.
    + intros k buf Hin. apply elem_of_nil in Hin. contradiction.
    + exact Hblocks.
    + exact Hcells.
  - split; [apply empty_cache_coherent; reflexivity |].
    split; [split; [intros k Hk; simpl in Hk; set_solver | reflexivity] |].
    repeat split.
Qed.

(** * The claims *)

(** ** Read after write *)



(** Scenario S2: the marked block is evicted by the 64th other block, is
    written back, is no longer dirty, and the value is read back. *)
Example eviction_writes_back :
  eviction_scenario = Some (false, [], Some 7, Some 7).
Proof. vm_compute. reflexivity. Qed.

(** ** Construction *)

(** C4 as stated fails: a raster constructed with [write_mode = false] is
    opened for update, not read-only. *)
Lemma opened_for_update_when_read_only :
  exists s, open_grid 2 2 flow_grid false = Constructed s
    /\ write_mode s = false /\ eAccess (dataset s) = GA_Update
    /\ eAccess (dataset s) <> GA_ReadOnly.
Proof.
  eexists. split; [reflexivity |]. repeat split. discriminate.
Qed.

(** C4, amended: construction opens the raster for update whatever
    [write_mode] is, and records [write_mode] in the instance. *)
Theorem new_opens_for_update (fs : FileSystem) (path : string) (band_id : Z)
    (wm : bool) (s : MR) :
  ManagedRaster.new fs path band_id wm = Constructed s ->
  eAccess (dataset s) = GA_Update /\ write_mode s = wm.
Proof.
  unfold ManagedRaster.new, GDALOpen.
  destruct (fs path) as [f|]; [| discriminate]. simpl.
  destruct ((band_id <? 1) || _); [discriminate |].
  destruct (GetRasterBand _ band_id) as [b|]; [| discriminate].
  unfold GetBlockSize. destruct (GetNoDataValue b) as [nd hnd].
  repeat match goal with
  | |- context [if ?c then _ else _] => destruct c; [discriminate |]
  | |- context [match ?o with Some _ => _ | None => _ end] =>
      destruct o; [| discriminate]
  end.
  intros Heq. injection Heq as <-. split; reflexivity.
Qed.

Lemma new_opens_for_update_witness :
  exists s, open_grid 2 2 flow_grid false = Constructed s
    /\ eAccess (dataset s) = GA_Update /\ write_mode s = false.
Proof.
  eexists. split; [reflexivity |].
  apply (new_opens_for_update (one_file (grid_file 2 2 flow_grid)) "flow.tif" 1 false).
  reflexivity.
Defined.

(** The block-size test accepts exactly the powers of two among the
    positive sizes. *)
Lemma power_of_two_check (n : Z) :
  0 < n -> (Z.land n (n - 1) = 0 <-> exists k, 0 <= k /\ n = 2 ^ k).
Proof.
  intros Hn. split.
  - intros H. exists (Z.log2 n). split; [apply Z.log2_nonneg | apply land_pred_pow2; assumption].
  - intros (k & Hk & ->). apply pow2_land_pred, Hk.
Qed.

(** For a band with positive block dimensions construction throws exactly
    when one of them is not a power of two. *)
Lemma new_rejects_other_sizes (fs : FileSystem) (path : string) (band_id : Z)
    (wm : bool) (ds : GDALDataset) (b : GDALRasterBand) :
  GDALOpen fs path GA_Update = Some ds ->
  (band_id <? 1) || (GetRasterCount ds <? band_id) = false ->
  GetRasterBand ds band_id = Some b ->
  0 < nBlockXSize b -> 0 < nBlockYSize b ->
  ((exists kx ky, 0 <= kx /\ 0 <= ky /\ nBlockXSize b = 2 ^ kx /\ nBlockYSize b = 2 ^ ky)
   -> exists s, ManagedRaster.new fs path band_id wm = Constructed s)
  /\ (~ (exists kx ky, 0 <= kx /\ 0 <= ky /\ nBlockXSize b = 2 ^ kx /\ nBlockYSize b = 2 ^ ky)
      -> exists e, ManagedRaster.new fs path band_id wm = Thrown e).
Proof.
  intros Hopen Hband Hb Hx Hy. unfold ManagedRaster.new.
  rewrite Hopen, Hband, Hb. unfold GetBlockSize.
  destruct (GetNoDataValue b) as [nd hnd].
  pose proof (power_of_two_check _ Hx) as Px. pose proof (power_of_two_check _ Hy) as Py.
  split.
  - intros (kx & ky & Hkx & Hky & Ex & Ey).
    assert (Z.land (nBlockXSize b) (nBlockXSize b - 1) = 0) as -> by (apply Px; eauto).
    assert (Z.land (nBlockYSize b) (nBlockYSize b - 1) = 0) as -> by (apply Py; eauto).
    simpl. unfold log2_int, cdiv.
    destruct (Z.ltb_spec 0 (nBlockXSize b)); [| lia].
    destruct (Z.ltb_spec 0 (nBlockYSize b)); [| lia].
    destruct (Z.eqb_spec (nBlockXSize b) 0); [lia |].
    destruct (Z.eqb_spec (nBlockYSize b) 0); [lia |].
    eexists. reflexivity.
  - intros Hnot.
    destruct (negb (Z.land (nBlockXSize b) (nBlockXSize b - 1) =? 0)
              || negb (Z.land (nBlockYSize b) (nBlockYSize b - 1) =? 0)) eqn:Hcheck;
      [eexists; reflexivity |].
    exfalso. apply Hnot.
    apply orb_false_iff in Hcheck as [Hcx Hcy].
    apply negb_false_iff, Z.eqb_eq in Hcx. apply negb_false_iff, Z.eqb_eq in Hcy.
    apply Px in Hcx as (kx & Hkx & Ex). apply Py in Hcy as (ky & Hky & Ey).
    exists kx, ky. auto.
Qed.

(** C6: the claim holds for positive sizes, but a block dimension of zero
    is not rejected: [0 & (0 - 1)] is [0], the test passes, no exception is
    thrown and construction runs into [log2(0)] and a division by zero. *)
Theorem zero_block_size_not_rejected :
  Z.land 0 (0 - 1) = 0
  /\ open_grid 0 2 flow_grid true = Undefined
  /\ (forall e, open_grid 0 2 flow_grid true <> Thrown e)
  /\ (exists e, open_grid 3 2 flow_grid true = Thrown e).
Proof.
  split; [reflexivity |]. split; [reflexivity |]. split; [discriminate |].
  eexists. reflexivity.
Qed.

(** ** Closing *)

Lemma close_entries_spec entries : forall s,
  geometry_ok s -> (forall k b, (k, b) ∈ entries -> valid_block s k) ->
  exists s', ManagedRaster.close_entries s entries = Some s'
    /\ shape s' = shape s /\ lru_cache s' = lru_cache s
    /\ (forall k, k ∈ dirty_blocks s' <-> k ∈ dirty_blocks s /\ k ∉ entries.*1).
Proof.
  induction entries as [|[k b] entries IH]; intros s G Hvalid.
  - exists s. split; [reflexivity |]. split; [reflexivity |]. split; [reflexivity |].
    intros k. split; [intros H; split; [exact H | apply not_elem_of_nil] | tauto].
  - assert (valid_block s k) as Hk by (apply (Hvalid k b), list_elem_of_here).
    assert (forall k0 b0, (k0, b0) ∈ entries -> valid_block s k0) as Hrest
      by (intros k0 b0 Hin; apply (Hvalid k0 b0), list_elem_of_further, Hin).
    cbn [ManagedRaster.close_entries].
    destruct (bool_decide_reflect (k ∈ dirty_blocks s)) as [Hd|Hd].
    + unfold ManagedRaster.write_block.
      match goal with
      | |- context [ManagedRaster.block_window ?t k] =>
          rewrite (block_window_eq t (geometry_ok_shape s t eq_refl G) k Hk);
          destruct (window_of t k) as [[[xoff yoff] wx] wy]
      end.
      cbn [mbind option_bind].
      match goal with
      | |- context [ManagedRaster.close_entries ?t entries] =>
          destruct (IH t (geometry_ok_shape s t eq_refl G) Hrest)
            as (s' & Hc & Hs & Hl & Hdirty)
      end.
      exists s'. split; [exact Hc |]. split; [exact Hs |]. split; [exact Hl |].
      intros k0. rewrite Hdirty. simpl. rewrite elem_of_difference, elem_of_singleton,
        not_elem_of_cons. tauto.
    + cbn [mbind option_bind].
      destruct (IH s G Hrest) as (s' & Hc & Hs & Hl & Hdirty).
      exists s'. split; [exact Hc |]. split; [exact Hs |]. split; [exact Hl |].
      intros k0. rewrite Hdirty. simpl. rewrite not_elem_of_cons.
      split; [intros [H1 H2]; repeat split; [assumption | congruence | assumption] | tauto].
Qed.

(** The loop of [close] does not look at [closed]. *)
Lemma close_entries_closed c entries : forall s,
  ManagedRaster.close_entries (ManagedRaster.with_closed c s) entries
  = ManagedRaster.with_closed c <$> ManagedRaster.close_entries s entries.
Proof.
  induction entries as [|[k b] entries IH]; intros s; [reflexivity |].
  cbn [ManagedRaster.close_entries].
  change (dirty_blocks (ManagedRaster.with_closed c s)) with (dirty_blocks s).
  destruct (bool_decide (k ∈ dirty_blocks s)).
  - unfold ManagedRaster.write_block.
    change (ManagedRaster.block_window
              (ManagedRaster.with_dirty (dirty_blocks s ∖ {[k]})
                 (ManagedRaster.with_closed c s)) k)
      with (ManagedRaster.block_window
              (ManagedRaster.with_dirty (dirty_blocks s ∖ {[k]}) s) k).
    destruct (ManagedRaster.block_window _ k) as [[[[xoff yoff] wx] wy]|];
      [| reflexivity].
    apply (IH (ManagedRaster.with_band (RasterIO_Write (band s) xoff yoff wx wy b)
                 (ManagedRaster.with_dirty (dirty_blocks s ∖ {[k]}) s))).
  - apply (IH s).
Qed.

(** [close] on a raster in use: it is defined and leaves no dirty block;
    with [write_mode] it leaves no cache entry either, without it the cache
    and the band are as before. *)
Lemma close_spec s :
  wf s -> dirty_ok s ->
  exists s', ManagedRaster.close s = Some s'
    /\ closed s' = true /\ dirty_blocks s' = ∅ /\ extent s' = extent s
    /\ write_mode s' = write_mode s
    /\ (write_mode s = true -> LRUCache.keys (lru_cache s') = [])
    /\ (write_mode s = false -> lru_cache s' = lru_cache s /\ band s' = band s).
Proof.
  intros [G C] [Hdr Hro]. unfold ManagedRaster.close. rewrite (g_open s G).
  change (write_mode (ManagedRaster.with_closed true s)) with (write_mode s).
  change (lru_cache (ManagedRaster.with_closed true s)) with (lru_cache s).
  destruct (write_mode s) eqn:Hwm; cbn [negb].
  - rewrite close_entries_closed.
    destruct (close_entries_spec (LRUCache.items (lru_cache s)) s G)
      as (s' & Hc & Hs & Hl & Hdirty).
    { intros k b Hin. apply (c_entries s C k b Hin). }
    rewrite Hc. cbn [fmap option_fmap option_map mbind option_bind].
    eexists. split; [reflexivity |].
    unfold shape in Hs. injection Hs as _ _ _ _ _ _ _ HW HH _ _ Hwm' _.
    split; [reflexivity |]. split.
    + apply set_eq. intros k. rewrite elem_of_empty. simpl. rewrite Hdirty.
      split; [intros [Hd Hn]; apply Hn, Hdr, Hd | contradiction].
    + split; [unfold extent; simpl; congruence |].
      split; [simpl; congruence |]. split; [reflexivity | discriminate].
  - eexists. split; [reflexivity |].
    split; [reflexivity |]. split; [apply Hro; reflexivity |].
    split; [reflexivity |]. split; [exact Hwm |]. split; [discriminate |].
    intros _. split; reflexivity.
Qed.

Lemma close_closed s : closed s = true -> ManagedRaster.close s = Some s.
Proof. intros H. unfold ManagedRaster.close. rewrite H. reflexivity. Qed.

Lemma get_closed s x y : closed s = true -> ManagedRaster.get s x y = None.
Proof. intros H. unfold ManagedRaster.get. rewrite H. reflexivity. Qed.

Lemma set_closed s x y v : closed s = true -> ManagedRaster.set s x y v = None.
Proof. intros H. unfold ManagedRaster.set. rewrite H. reflexivity. Qed.

Lemma extent_shape s s' : shape s' = shape s -> extent s' = extent s.
Proof.
  unfold shape, extent. intros Hs.
  injection Hs as _ _ _ _ _ _ _ -> -> _ _ _ _. reflexivity.
Qed.

Lemma write_mode_shape s s' : shape s' = shape s -> write_mode s' = write_mode s.
Proof.
  unfold shape. intros Hs. injection Hs as _ _ _ _ _ _ _ _ _ _ _ -> _. reflexivity.
Qed.

Lemma in_bounds_extent s s' x y : extent s' = extent s -> in_bounds s x y -> in_bounds s' x y.
Proof. unfold extent, in_bounds. intros He. injection He as -> ->. auto. Qed.

(** One call in range keeps a raster in use or closed, and its extent. *)
Lemma perform_in_use s c s' :
  in_use_or_closed s -> call_ok s c -> perform s c = Some s' ->
  in_use_or_closed s' /\ extent s' = extent s /\ write_mode s' = write_mode s.
Proof.
  intros [[W D] | [Hcl Hd]] Hok Hp.
  - destruct c as [x y | x y v |]; simpl in *.
    + destruct (get_spec s x y W Hok) as (s1 & v & Hg & P & _).
      rewrite Hg in Hp. injection Hp as <-.
      split; [left; split; [apply P | apply P, D] |].
      split; [apply extent_shape, P | apply write_mode_shape, P].
    + destruct (set_spec s x y v W Hok) as (s1 & Hs & P & _).
      rewrite Hs in Hp. injection Hp as <-.
      split; [left; split; [apply P | apply P, D] |].
      split; [apply extent_shape, P | apply write_mode_shape, P].
    + destruct (close_spec s W D) as (s1 & Hc & Hcl & Hd & He & Hwm & _).
      rewrite Hc in Hp. injection Hp as <-. auto using in_use_or_closed.
      split; [right; auto | auto].
  - destruct c as [x y | x y v |]; simpl in *.
    + rewrite get_closed in Hp by exact Hcl. discriminate.
    + rewrite set_closed in Hp by exact Hcl. discriminate.
    + rewrite close_closed in Hp by exact Hcl. injection Hp as <-.
      split; [right; auto | auto].
Qed.

Lemma run_in_use calls : forall s s',
  in_use_or_closed s -> Forall (call_ok s) calls -> run s calls = Some s' ->
  in_use_or_closed s' /\ extent s' = extent s /\ write_mode s' = write_mode s.
Proof.
  induction calls as [|c calls IH]; intros s s' J Hok Hrun; simpl in Hrun.
  - injection Hrun as <-. auto.
  - apply Forall_cons in Hok as [Hc Hok].
    destruct (perform s c) as [s1|] eqn:Hp; [| discriminate]. simpl in Hrun.
    destruct (perform_in_use s c s1 J Hc Hp) as (J1 & He1 & Hw1).
    destruct (IH s1 s' J1) as (J' & He' & Hw'); [| exact Hrun | ].
    + eapply Forall_impl; [exact Hok |]. intros [x y | x y v |]; simpl; auto;
        apply in_bounds_extent; auto.
    + split; [exact J' |]. split; congruence.
Qed.

(** Dirty containment over any sequence of calls in range. *)
Lemma run_dirty_resident s calls s' :
  wf s -> dirty_ok s -> Forall (call_ok s) calls -> run s calls = Some s' ->
  dirty_resident s'.
Proof.
  intros W D Hok Hrun.
  destruct (run_in_use calls s s' (or_introl (conj W D)) Hok Hrun) as ([[_ [Hdr _]] | [_ Hd]] & _).
  - exact Hdr.
  - intros k Hk. rewrite Hd in Hk. apply elem_of_empty in Hk. contradiction.
Qed.

(** After [close] with [write_mode] the dirty set and the cache are empty. *)
Lemma close_write_mode_empties s s' :
  wf s -> dirty_ok s -> write_mode s = true -> ManagedRaster.close s = Some s' ->
  dirty_blocks s' = ∅ /\ LRUCache.keys (lru_cache s') = [].
Proof.
  intros W D Hwm Hc. destruct (close_spec s W D) as (s1 & Hc1 & _ & Hd & _ & _ & Hk & _).
  rewrite Hc in Hc1. injection Hc1 as <-. auto.
Qed.

(** C7: dirty containment holds, and [close] with [write_mode] empties the
    dirty set and the cache; but [close] without [write_mode] returns before
    the cache is deleted, so the cache still has its entries: after reading
    cell (0, 0) of a read-only raster and closing it, block 0 is still a key
    of the cache, while the same calls with [write_mode] leave none. *)
Theorem close_read_only_keeps_cache :
  close_scenario false = Some (false, true, [], [0])
  /\ close_scenario true = Some (true, true, [], []).
Proof. split; vm_compute; reflexivity. Qed.

(** ** Read-only rasters *)





(** ** Flow-direction codes *)




Lemma nibble_alt' v d : Z.land (v ≫ (d * 4)) 15 = nibble v d.
Proof. unfold nibble. rewrite (Z.mul_comm d 4). reflexivity. Qed.


Lemma direction_tables d : 0 <= d <= 7 ->
  at_index COL_OFFSETS d = Some (col_offset d)
  /\ at_index ROW_OFFSETS d = Some (row_offset d)
  /\ at_index FLOW_DIR_REVERSE_DIRECTION d = Some (reverse d)
  /\ 0 <= reverse d <= 7 /\ reverse (reverse d) = d
  /\ col_offset (reverse d) = - col_offset d /\ row_offset (reverse d) = - row_offset d.
Proof.
  intros Hd.
  assert (d = 0 \/ d = 1 \/ d = 2 \/ d = 3 \/ d = 4 \/ d = 5 \/ d = 6 \/ d = 7) as Hc by lia.
  repeat (destruct Hc as [-> | Hc]); [.. | subst d]; vm_compute; repeat split; discriminate.
Qed.

Lemma outside_false s x y : outside s x y = false <-> in_bounds s x y.
Proof.
  unfold outside, in_bounds. rewrite !orb_false_iff, !Z.ltb_ge, !Z.leb_gt. lia.
Qed.

Lemma outside_extent s s' x y : extent s' = extent s -> outside s' x y = outside s x y.
Proof. unfold extent, outside. intros He. injection He as -> ->. reflexivity. Qed.


Lemma same_view_trans s1 s2 s3 : same_view s1 s2 -> same_view s2 s3 -> same_view s1 s3.
Proof.
  intros [He1 Hp1] [He2 Hp2]. split; [congruence |].
  intros x y Hb. rewrite <- (Hp1 x y Hb). apply Hp2.
  apply (in_bounds_extent s1 s2); auto.
Qed.

(** What a read through [get] gives the flow-direction code. *)
Lemma get_good s x y :
  good s -> in_bounds s x y ->
  exists s' v n, ManagedRaster.get s x y = Some (s', v)
    /\ int_of_double v = Some n /\ pixel_int s x y = Some n
    /\ good s' /\ same_view s s' /\ shape s' = shape s
    /\ dirty_blocks s' ⊆ dirty_blocks s.
Proof.
  intros (W & Hco & Hint) Hb.
  destruct (get_spec s x y W Hb) as (s' & v & Hget & P & Hpeek & Hsame & Hsub).
  destruct (Hsame Hco) as [Hco' Hcells].
  destruct (Hint x y Hb) as [n Hn].
  exists s', v, n. split; [exact Hget |].
  assert (int_of_double v = Some n) as Hv.
  { unfold pixel_int in Hn. rewrite Hpeek in Hn. exact Hn. }
  split; [exact Hv |]. split; [exact Hn |].
  assert (same_view s s') as Hview.
  { split; [apply extent_shape, P |]. intros x' y' Hb'. unfold pixel_int.
    rewrite (Hcells x' y' Hb'). reflexivity. }
  split; [| split; [exact Hview | split; [apply P | exact Hsub]]].
  split; [apply P |]. split; [exact Hco' |].
  intros x' y' Hb'. apply (in_bounds_shape s s' x' y' (p_shape s s' P)) in Hb'.
  destruct Hview as [_ Hp]. rewrite (Hp x' y' Hb'). apply Hint, Hb'.
Qed.

(** ** Local high points *)



(** A freshly constructed raster whose pixels convert to [int] is good. *)
Lemma new_good fs path band_id wm s :
  ManagedRaster.new fs path band_id wm = Constructed s ->
  0 < nRasterXSize (dataset s) -> 0 < nRasterYSize (dataset s) ->
  (block_nx s * block_ny s <=? INT_MAX) = true ->
  (block_xsize s * block_ysize s <=? INT_MAX) = true ->
  band_converts s = true ->
  good s.
Proof.
  intros Hnew HW HH Hblocks Hcells Hconv.
  destruct (new_spec fs path band_id wm s Hnew HW HH Hblocks Hcells)
    as (W & Hco & _ & _ & Hitems & _).
  split; [exact W |]. split; [exact Hco |].
  intros x y [Hx Hy]. unfold pixel_int, peek. rewrite Hitems. simpl.
  unfold band_converts in Hconv. rewrite forallb_forall in Hconv.
  assert (In y (seqZ 0 (raster_y_size s))) as Hiny
    by (apply list_elem_of_In, elem_of_seqZ; lia).
  specialize (Hconv y Hiny). rewrite forallb_forall in Hconv.
  assert (In x (seqZ 0 (raster_x_size s))) as Hinx
    by (apply list_elem_of_In, elem_of_seqZ; lia).
  specialize (Hconv x Hinx). apply bool_decide_eq_true in Hconv. exact Hconv.
Qed.


(** Scenario S3 on the same raster: the west neighbor holds [0x1] and flows
    east into the centre, which is therefore no high point; the corner
    (2, 2) has no neighbor flowing into it. *)
Example high_point_scenario :
  (s ← constructed (open_grid 2 2 flow_grid false);
   '(s, b) ← ManagedFlowDirRaster.is_local_high_point s 1 1;
   '(_, b') ← ManagedFlowDirRaster.is_local_high_point s 2 2;
   Some (b, b')) = Some (false, true).
Proof. vm_compute. reflexivity. Qed.

(** ** Pixels *)

Lemma with_dirty_good s r :
  good r -> dirty_blocks r ⊆ dirty_blocks s ->
  good (ManagedRaster.with_dirty (dirty_blocks s) r)
  /\ same_view r (ManagedRaster.with_dirty (dirty_blocks s) r).
Proof.
  intros ([G C] & Hco & Hint) Hsub. split; [| split; [reflexivity | auto]].
  split; [split |].
  - apply (geometry_ok_shape r (ManagedRaster.with_dirty _ r) eq_refl G).
  - destruct C. constructor; assumption.
  - split; [| exact Hint].
    intros k buf Hin Hflag. apply (Hco k buf Hin).
    simpl in Hflag. destruct (write_mode r); [| reflexivity]. simpl in *.
    apply bool_decide_eq_false in Hflag. apply bool_decide_eq_false.
    intros Hd. apply Hflag, Hsub, Hd.
Qed.

(** A pixel descriptor of a cell of a good raster captures its code. *)
Lemma Pixel_new_spec s x y :
  good s -> in_bounds s x y ->
  exists p n, Pixel.new s x y = Some p /\ pixel_int s x y = Some n
    /\ Pixel.val p = n /\ Pixel.x p = x /\ Pixel.y p = y
    /\ good (Pixel.raster p) /\ same_view s (Pixel.raster p).
Proof.
  intros G Hb.
  destruct (get_good s x y G Hb) as (r & v & n & Hget & Hv & Hn & Gr & Vr & _ & Hsub).
  destruct (with_dirty_good s r Gr Hsub) as [Gd Vd].
  unfold Pixel.new. rewrite Hget. cbn [mbind option_bind]. rewrite Hv.
  cbn [mbind option_bind]. eexists. exists n. split; [reflexivity |].
  split; [exact Hn |]. do 3 (split; [reflexivity |]).
  split; [exact Gd |]. apply (same_view_trans s r _ Vr Vd).
Qed.

(** ** Single-scheme downslope iteration *)

Lemma table_defined (d : Z) :
  (0 <= d <= 7 -> is_Some (at_index COL_OFFSETS d) /\ is_Some (at_index ROW_OFFSETS d))
  /\ (~ 0 <= d <= 7 -> at_index COL_OFFSETS d = None).
Proof.
  split.
  - intros Hd. destruct (direction_tables d Hd) as (-> & -> & _). eauto.
  - intros Hd. unfold at_index. destruct (Z.leb_spec 0 d); [| reflexivity].
    apply lookup_ge_None. simpl. lia.
Qed.

(** C5 as stated fails: the centre of [d8_grid] holds 8, and the first step
    of both downslope iterators indexes the offset tables at 8, outside
    them; nothing defines the outcome, and no end sentinel is yielded. *)
Lemma downslope_D8_out_of_range_undefined :
  (s ← constructed (open_grid 2 2 d8_grid false);
   p ← Pixel.new s 1 1;
   Some (Pixel.val p, at_index COL_OFFSETS (Pixel.val p),
         NeighborIterator.at_end <$> DownslopeNeighborIterator.new D8 p,
         NeighborIterator.at_end <$> DownslopeNeighborNoSkipIterator.new D8 p))
  = Some (8, None, None, None).
Proof. vm_compute. reflexivity. Qed.

(** C5, amended: under the single scheme the first step of downslope
    iteration is defined exactly for the pixels whose value is in 0..7.
    For those, Downslope yields the neighbor in direction [val] with
    proportion 1 when it is a cell of the raster and the end sentinel
    otherwise, and Downslope-no-skip yields that neighbor wherever it lies.
    For a value outside 0..7 the step reads the offset tables out of
    range. *)
Theorem downslope_D8_first_step (p : Pixel.t) :
  let val := Pixel.val p in
  let xj := Pixel.x p + col_offset val in
  let yj := Pixel.y p + row_offset val in
  let out := to_new (NeighborTuple.new val xj yj 1) in
  (0 <= val <= 7 ->
     DownslopeNeighborIterator.new D8 p
     = Some (if outside (Pixel.raster p) xj yj
             then {| pixel := p; m_ptr := to_endVal; i := 0 |}
             else {| pixel := p; m_ptr := out; i := 8 |})
     /\ DownslopeNeighborNoSkipIterator.new D8 p
        = Some {| pixel := p; m_ptr := out; i := 8 |})
  /\ (~ 0 <= val <= 7 ->
        at_index COL_OFFSETS val = None
        /\ DownslopeNeighborIterator.new D8 p = None
        /\ DownslopeNeighborNoSkipIterator.new D8 p = None).
Proof.
  cbv zeta. split.
  - intros Hv. destruct (direction_tables _ Hv) as (Hcol & Hrow & _).
    unfold DownslopeNeighborIterator.new, DownslopeNeighborNoSkipIterator.new.
    cbn. rewrite Hcol, Hrow. cbn.
    destruct (outside (Pixel.raster p) _ _); split; reflexivity.
  - intros Hv. destruct (table_defined (Pixel.val p)) as [_ Hnone].
    specialize (Hnone Hv). split; [exact Hnone |].
    unfold DownslopeNeighborIterator.new, DownslopeNeighborNoSkipIterator.new.
    cbn. rewrite Hnone. split; reflexivity.
Qed.

Lemma d8_raster_good :
  exists s, constructed (open_grid 2 2 d8_grid false) = Some s
    /\ good s /\ extent s = (3, 3) /\ pixel_int s 0 0 = Some 4.
Proof.
  eexists. split; [reflexivity |]. split.
  - apply (new_good (one_file (grid_file 2 2 d8_grid)) "flow.tif" 1 false);
      [reflexivity | vm_compute; reflexivity ..].
  - vm_compute. split; reflexivity.
Qed.

Lemma downslope_D8_first_step_witness :
  exists s p, constructed (open_grid 2 2 d8_grid false) = Some s
    /\ Pixel.new s 0 0 = Some p /\ Pixel.val p = 4
    /\ DownslopeNeighborIterator.new D8 p
       = Some {| pixel := p; m_ptr := to_endVal; i := 0 |}
    /\ DownslopeNeighborNoSkipIterator.new D8 p
       = Some {| pixel := p; m_ptr := to_new (NeighborTuple.new 4 (-1) 0 1); i := 8 |}.
Proof.
  destruct d8_raster_good as (s & Hs & G & He & H00).
  destruct (Pixel_new_spec s 0 0 G) as (p & n & Hp & Hn & Hval & Hx & Hy & _ & [Hep _]).
  { unfold extent, in_bounds in *. injection He as -> ->. lia. }
  assert (Pixel.val p = 4) as Hv by congruence.
  exists s, p. split; [exact Hs |]. split; [exact Hp |]. split; [exact Hv |].
  pose proof (proj1 (downslope_D8_first_step p)) as H. cbv zeta in H.
  rewrite Hv, Hx, Hy in H.
  assert (outside (Pixel.raster p) (0 + col_offset 4) (0 + row_offset 4) = true) as Hout.
  { rewrite (outside_extent s _ _ _ Hep). unfold outside, extent in *.
    injection He as -> ->. reflexivity. }
  rewrite Hout in H. apply H. lia.
Defined.

(** Scenario S5: the pixel (0, 0) holds 4, west, outside the raster;
    Downslope yields no tuple. *)
Example downslope_D8_edge :
  downslope_at D8 (open_grid 2 2 d8_grid false) 0 0 = Some [].
Proof. vm_compute. reflexivity. Qed.

(** ** Multi-scheme iteration *)

Lemma delete_m_ptr_ok it :
  m_ptr it <> to_endVal ->
  NeighborIterator.delete_m_ptr it
  = Some {| pixel := pixel it; m_ptr := nullptr; i := i it |}.
Proof.
  unfold NeighborIterator.delete_m_ptr. destruct (m_ptr it); [reflexivity | | reflexivity].
  intros H. contradiction.
Qed.

Lemma seqZ_directions (k : nat) :
  seqZ (8 - Z.of_nat (S k)) (Z.of_nat (S k))
  = (8 - Z.of_nat (S k)) :: seqZ (8 - Z.of_nat k) (Z.of_nat k).
Proof.
  rewrite seqZ_cons by lia. f_equal. f_equal; lia.
Qed.




Lemma drain_end next steps it :
  m_ptr it = to_endVal -> drain next steps it = Some ([], it).
Proof. intros H. destruct steps; simpl; rewrite H; reflexivity. Qed.

Lemma drain_new next steps it t :
  m_ptr it = to_new t ->
  drain next (S steps) it
  = next it ≫= fun it => drain next steps it ≫= fun '(l, it) => Some (t :: l, it).
Proof. intros H. simpl. rewrite H. reflexivity. Qed.



Lemma downslope_run s x y val : forall (k n steps : nat) it,
  (k <= 8)%nat -> (k < n)%nat -> (k <= steps)%nat ->
  i it = 8 - Z.of_nat k -> m_ptr it <> to_endVal ->
  Pixel.x (pixel it) = x -> Pixel.y (pixel it) = y -> Pixel.val (pixel it) = val ->
  extent (Pixel.raster (pixel it)) = extent s ->
  exists fin,
    (DownslopeNeighborIterator.next_MFD n it
     ≫= drain (DownslopeNeighborIterator.next MFD) steps)
    = Some (downslope_expected s x y val (seqZ (8 - Z.of_nat k) (Z.of_nat k)), fin)
      /\ pixel fin = pixel it.
Proof.
  induction k as [|k IH]; intros n steps it Hk8 Hn Hsteps Hi Hptr Hx Hy Hval He;
    (destruct n as [|n]; [lia |]); cbn [DownslopeNeighborIterator.next_MFD];
    rewrite (delete_m_ptr_ok it Hptr); cbn [mbind option_bind NeighborIterator.i];
    rewrite Hi.
  - change (8 - Z.of_nat 0 =? 8) with true. cbn [mbind option_bind].
    rewrite drain_end by reflexivity. eexists. split; reflexivity.
  - assert (0 <= 8 - Z.of_nat (S k) <= 7) as Hd by lia.
    destruct (Z.eqb_spec (8 - Z.of_nat (S k)) 8); [lia |].
    destruct (direction_tables _ Hd) as (Hcol & Hrow & _).
    rewrite seqZ_directions. cbn [downslope_expected].
    set (d := 8 - Z.of_nat (S k)) in *.
    rewrite Hcol, Hrow. cbn [mbind option_bind NeighborIterator.pixel].
    rewrite Hx, Hy, Hval, nibble_alt'.
    unfold flows_out at 1. rewrite <- (outside_extent s _ _ _ He).
    set (it0 := {| pixel := pixel it; m_ptr := nullptr; i := d |}).
    destruct (outside (Pixel.raster (pixel it)) (x + col_offset d) (y + row_offset d))
      eqn:Hout; cbn [negb andb].
    + apply (IH n steps (NeighborIterator.advance it0));
        [lia | lia | lia | cbn; lia | discriminate | exact Hx | exact Hy | exact Hval
        | exact He].
    + destruct (Z.eqb_spec (nibble val d) 0) as [Hz|Hnz]; cbn [negb].
      * apply (IH n steps (NeighborIterator.advance it0));
          [lia | lia | lia | cbn; lia | discriminate | exact Hx | exact Hy | exact Hval
          | exact He].
      * cbn [mbind option_bind].
        destruct steps as [|steps]; [lia |].
        erewrite drain_new by reflexivity.
        match goal with
        | |- context [DownslopeNeighborIterator.next MFD ?it1] =>
            destruct (IH 9%nat steps it1) as (fin & Hrun & Hfin);
              [lia | lia | lia | cbn; lia | discriminate | exact Hx | exact Hy
              | exact Hval | exact He |];
            change (DownslopeNeighborIterator.next MFD it1)
              with (DownslopeNeighborIterator.next_MFD 9 it1);
            destruct (DownslopeNeighborIterator.next_MFD 9 it1) as [it2|];
              [| discriminate]
        end.
        cbn [mbind option_bind] in Hrun |- *. rewrite Hrun. cbn [mbind option_bind].
        exists fin. split; [reflexivity | exact Hfin].
Qed.



Lemma elem_downslope_expected s x y val dirs t :
  t ∈ downslope_expected s x y val dirs
  <-> exists d, d ∈ dirs /\ flows_out s x y val d = true
        /\ t = NeighborTuple.new d (x + col_offset d) (y + row_offset d) (nibble val d).
Proof.
  induction dirs as [|d dirs IH]; cbn [downslope_expected].
  - split; [intros H; apply elem_of_nil in H; contradiction |].
    intros (d & H & _). apply elem_of_nil in H. contradiction.
  - destruct (flows_out s x y val d) eqn:Hf.
    + rewrite elem_of_cons, IH. split.
      * intros [-> | (d' & Hin & Hf' & ->)].
        -- exists d. split; [apply list_elem_of_here | auto].
        -- exists d'. split; [apply list_elem_of_further, Hin | auto].
      * intros (d' & Hin & Hf' & ->). apply elem_of_cons in Hin as [-> | Hin]; eauto.
    + rewrite IH. split.
      * intros (d' & Hin & Hf' & ->). exists d'. split; [apply list_elem_of_further, Hin | auto].
      * intros (d' & Hin & Hf' & ->). apply elem_of_cons in Hin as [-> | Hin];
          [congruence | eauto].
Qed.



(** Scenario S4 with the nibbles it names: the centre (2, 2) has nibble
    1 = 2 and nibble 2 = 1, and Downslope yields directions 1 and 2 in that
    order with those weights. *)
Example downslope_MFD_scenario :
  downslope_at MFD (open_grid 4 4 centre_grid false) 2 2
  = Some [(1, 3, 1, float_of_int 2); (2, 2, 1, float_of_int 1)].
Proof. vm_compute. reflexivity. Qed.

(** ** Upslope proportions *)




Lemma in_bounds_3x3 s x y :
  extent s = (3, 3) -> 0 <= x < 3 -> 0 <= y < 3 -> in_bounds s x y.
Proof. unfold extent, in_bounds. intros He. injection He as -> ->. auto. Qed.


(** ** The normalising division *)



(** ** Duality *)

Lemma DownslopeNeighbors_spec s p :
  extent (Pixel.raster p) = extent s ->
  exists fin,
    DownslopeNeighbors MFD p
    = Some (downslope_expected s (Pixel.x p) (Pixel.y p) (Pixel.val p) (seqZ 0 8), fin).
Proof.
  intros He.
  destruct (downslope_run s (Pixel.x p) (Pixel.y p) (Pixel.val p) 8 9 8
              (NeighborIterator.init p)) as (fin & H & _);
    [lia | lia | lia | reflexivity | discriminate | reflexivity | reflexivity
    | reflexivity | exact He |].
  exists fin. exact H.
Qed.



(** * Further properties *)

(** ** Sequences of reads and writes *)




(** [close] is defined on every raster in use and sets the latch. *)
Lemma close_defined s :
  wf s -> exists s', ManagedRaster.close s = Some s' /\ closed s' = true.
Proof.
  intros [G C]. unfold ManagedRaster.close. rewrite (g_open s G).
  change (write_mode (ManagedRaster.with_closed true s)) with (write_mode s).
  change (lru_cache (ManagedRaster.with_closed true s)) with (lru_cache s).
  destruct (write_mode s); cbn [negb].
  - rewrite close_entries_closed.
    destruct (close_entries_spec (LRUCache.items (lru_cache s)) s G)
      as (s' & Hc & _).
    { intros k b Hin. apply (c_entries s C k b Hin). }
    rewrite Hc. eexists. split; reflexivity.
  - eexists. split; reflexivity.
Qed.



(** ** Reading a raster that holds no modified block *)







(** ** Writes leave the other cells alone *)










(** ** What [close] writes *)





(** ** Writes without [write_mode] *)




(** The same on the 9 x 9 raster in 1 x 1 blocks: without [write_mode] the
    7 stored at (0, 0) is gone once 64 other blocks have been read, and the
    cell reads as the band's 0 again. *)
Example read_only_write_lost :
  (s ← constructed (open_grid 1 1 zero_grid false);
   s1 ← run s (call_set 0 0 (double_of_int 7) :: sweep);
   r ← ManagedRaster.get s1 0 0;
   Some (LRUCache.exist 0 (lru_cache s1), int_of_double r.2))
  = Some (false, Some 0).
Proof. vm_compute. reflexivity. Qed.

(** ** More on the constructor *)

(** The members of a constructed instance. *)
Lemma new_fields fs path band_id wm s :
  ManagedRaster.new fs path band_id wm = Constructed s ->
  exists f b,
    fs path = Some f
    /\ 1 <= band_id <= Z.of_nat (length (file_bands f))
    /\ file_bands f !! Z.to_nat (band_id - 1) = Some b
    /\ band s = b /\ ManagedRaster.band_id s = band_id
    /\ raster_x_size s = file_xsize f /\ raster_y_size s = file_ysize f
    /\ block_xsize s = nBlockXSize b /\ block_ysize s = nBlockYSize b
    /\ 0 < block_xsize s /\ 0 < block_ysize s
    /\ block_nx s = (raster_x_size s + block_xsize s - 1) `quot` block_xsize s
    /\ block_ny s = (raster_y_size s + block_ysize s - 1) `quot` block_ysize s
    /\ actualBlockWidths s
       = ManagedRaster.fill_actualBlockWidths (dataset s) b (block_nx s) (block_ny s).
Proof.
  unfold ManagedRaster.new, GDALOpen.
  destruct (fs path) as [f|]; [| discriminate]. cbn [mbind option_bind].
  unfold GetRasterCount, GetRasterBand.
  cbn [nRasterXSize nRasterYSize papoBands adfGeoTransform].
  destruct (band_id <? 1) eqn:Hlo; [discriminate |].
  destruct (Z.of_nat (length (file_bands f)) <? band_id) eqn:Hhi; [discriminate |].
  cbn [orb]. apply Z.ltb_ge in Hlo, Hhi.
  rewrite at_index_lookup by lia.
  destruct (file_bands f !! Z.to_nat (band_id - 1)) as [b|] eqn:Hb; [| discriminate].
  unfold GetBlockSize. destruct (GetNoDataValue b) as [nd hnd].
  destruct (negb _ || negb _); [discriminate |].
  unfold log2_int, cdiv.
  destruct (Z.ltb_spec 0 (nBlockXSize b)) as [Hpx|]; [| discriminate].
  destruct (Z.ltb_spec 0 (nBlockYSize b)) as [Hpy|]; [| discriminate].
  destruct (Z.eqb_spec (nBlockXSize b) 0); [lia |].
  destruct (Z.eqb_spec (nBlockYSize b) 0); [lia |].
  intros Heq. injection Heq as <-. exists f, b. cbn.
  repeat (split; [first [reflexivity | assumption | lia] |]). reflexivity.
Qed.

(** X7: the constructor does not test what [GDALOpen] returns: when no
    dataset opens at the path it goes on through the null pointer, which is
    undefined, and throws nothing.  Given a dataset, it throws the
    band-number exception exactly when [band_id] is below 1 or above the
    number of bands; an instance that is constructed reads band number
    [band_id], counted from 1. *)
Theorem new_checks_band_id (fs : FileSystem) (path : string) (band_id : Z)
    (wm : bool) :
  (fs path = None -> ManagedRaster.new fs path band_id wm = Undefined)
  /\ (forall f, fs path = Some f ->
        (ManagedRaster.new fs path band_id wm
         = Thrown (invalid_argument
             "Error: band ID is not a valid band number. This error is happening in the ManagedRaster.h extension.")
         <-> band_id < 1 \/ Z.of_nat (length (file_bands f)) < band_id)
        /\ (forall s, ManagedRaster.new fs path band_id wm = Constructed s ->
              1 <= band_id <= Z.of_nat (length (file_bands f))
              /\ file_bands f !! Z.to_nat (band_id - 1) = Some (band s))).
Proof.
  split.
  { intros Hf. unfold ManagedRaster.new, GDALOpen. rewrite Hf. reflexivity. }
  intros f Hf. split.
  - unfold ManagedRaster.new, GDALOpen. rewrite Hf. cbn [mbind option_bind].
    unfold GetRasterCount. cbn [papoBands].
    destruct (Z.ltb_spec band_id 1) as [Hlo|Hlo]; cbn [orb].
    { split; [intros _; lia | reflexivity]. }
    destruct (Z.ltb_spec (Z.of_nat (length (file_bands f))) band_id) as [Hhi|Hhi].
    { split; [intros _; lia | reflexivity]. }
    split; [| lia]. intros H. exfalso. revert H.
    destruct (GetRasterBand _ band_id) as [b|]; [| discriminate].
    unfold GetBlockSize. destruct (GetNoDataValue b) as [nd hnd].
    destruct (negb _ || negb _); [discriminate |].
    repeat match goal with
    | |- context [match ?o with Some _ => _ | None => _ end] => destruct o
    end; discriminate.
  - intros s Hnew.
    destruct (new_fields fs path band_id wm s Hnew) as (f' & b & Hf' & Hid & Hb & Hband & _).
    rewrite Hf in Hf'. injection Hf' as <-. rewrite Hband. auto.
Qed.

Lemma new_checks_band_id_witness :
  ManagedRaster.new (one_file (grid_file 2 2 flow_grid)) "none.tif" 1 true = Undefined
  /\ (open_grid 2 2 flow_grid true
      = Thrown (invalid_argument
          "Error: band ID is not a valid band number. This error is happening in the ManagedRaster.h extension.")
      <-> 1 < 1 \/ Z.of_nat (length (file_bands (grid_file 2 2 flow_grid))) < 1)
  /\ (forall s, open_grid 2 2 flow_grid true = Constructed s ->
        1 <= 1 <= Z.of_nat (length (file_bands (grid_file 2 2 flow_grid)))
        /\ file_bands (grid_file 2 2 flow_grid) !! Z.to_nat (1 - 1) = Some (band s)).
Proof.
  split.
  - apply (proj1 (new_checks_band_id (one_file (grid_file 2 2 flow_grid)) "none.tif" 1 true)).
    reflexivity.
  - apply (proj2 (new_checks_band_id (one_file (grid_file 2 2 flow_grid)) "flow.tif" 1 true)
             (grid_file 2 2 flow_grid)).
    reflexivity.
Defined.

Lemma length_bind_const {A B} (g : A -> list B) (n : nat) (l : list A) :
  (forall a, length (g a) = n) -> length (l ≫= g) = (length l * n)%nat.
Proof.
  intros Hg. induction l as [|a l IH]; [reflexivity |].
  rewrite bind_cons, length_app, Hg, IH. reflexivity.
Qed.

Lemma length_fill_actualBlockWidths ds b nx ny :
  0 <= nx -> 0 <= ny ->
  Z.of_nat (length (ManagedRaster.fill_actualBlockWidths ds b nx ny)) = nx * ny.
Proof.
  intros Hx Hy. unfold ManagedRaster.fill_actualBlockWidths.
  rewrite (length_bind_const _ (Z.to_nat nx)).
  - rewrite length_seqZ. lia.
  - intros y. rewrite (length_bind_const _ 1%nat) by reflexivity.
    rewrite length_seqZ. lia.
Qed.

(** X8: for a raster of positive width and height the constructor's
    [(size + block - 1) / block] is the number of blocks needed to cover the
    raster and no more: the last block column and row start inside the
    raster and the grid reaches its right and bottom edges; and the two loops
    fill one entry of [actualBlockWidths] per block. *)
Theorem new_block_grid (fs : FileSystem) (path : string) (band_id : Z) (wm : bool)
    (s : MR) :
  ManagedRaster.new fs path band_id wm = Constructed s ->
  0 < raster_x_size s -> 0 < raster_y_size s ->
  (block_nx s - 1) * block_xsize s < raster_x_size s <= block_nx s * block_xsize s
  /\ (block_ny s - 1) * block_ysize s < raster_y_size s <= block_ny s * block_ysize s
  /\ Z.of_nat (length (actualBlockWidths s)) = block_nx s * block_ny s.
Proof.
  intros Hnew HW HH.
  destruct (new_fields fs path band_id wm s Hnew)
    as (f & b & _ & _ & _ & _ & _ & _ & _ & _ & _ & Hbx & Hby & Hnx & Hny & Hwidths).
  rewrite Z.quot_div_nonneg in Hnx, Hny by lia.
  pose proof (Z.div_mod (raster_x_size s + block_xsize s - 1) (block_xsize s)) as Dx.
  pose proof (Z.mod_pos_bound (raster_x_size s + block_xsize s - 1) (block_xsize s) Hbx) as Mx.
  pose proof (Z.div_mod (raster_y_size s + block_ysize s - 1) (block_ysize s)) as Dy.
  pose proof (Z.mod_pos_bound (raster_y_size s + block_ysize s - 1) (block_ysize s) Hby) as My.
  rewrite <- Hnx in Dx. rewrite <- Hny in Dy.
  split; [nia |]. split; [nia |].
  rewrite Hwidths. apply length_fill_actualBlockWidths; nia.
Qed.

Lemma new_block_grid_witness :
  exists s, open_grid 2 2 flow_grid true = Constructed s
    /\ (block_nx s - 1) * block_xsize s < raster_x_size s <= block_nx s * block_xsize s
    /\ (block_ny s - 1) * block_ysize s < raster_y_size s <= block_ny s * block_ysize s
    /\ Z.of_nat (length (actualBlockWidths s)) = block_nx s * block_ny s.
Proof.
  eexists. split; [reflexivity |].
  apply (new_block_grid (one_file (grid_file 2 2 flow_grid)) "flow.tif" 1 true);
    [reflexivity | vm_compute; reflexivity ..].
Defined.

(** ** Block windows *)



(** ** Coordinates left of the raster *)

(** A load assigns none of the geometry members. *)
Lemma drain_removed_shape l : forall s s',
  ManagedRaster.drain_removed s l = Some s' -> shape s' = shape s.
Proof.
  induction l as [|[k b] l IH]; intros s s' H; cbn [ManagedRaster.drain_removed] in H.
  - injection H as <-. reflexivity.
  - destruct (write_mode s); [destruct (bool_decide (k ∈ dirty_blocks s)) |];
      cbn [mbind option_bind] in H; try (apply IH, H).
    unfold ManagedRaster.write_block in H.
    destruct (ManagedRaster.block_window _ k) as [[[[xoff yoff] wx] wy]|];
      [| discriminate].
    cbn [mbind option_bind] in H. apply IH in H. rewrite H. reflexivity.
Qed.

Lemma load_block_shape s k s' :
  ManagedRaster._load_block s k = Some s' -> shape s' = shape s.
Proof.
  unfold ManagedRaster._load_block.
  destruct (ManagedRaster.block_window s k) as [[[[xoff yoff] wx] wy]|];
    [| discriminate].
  cbn [mbind option_bind].
  destruct (LRUCache.put k _ (lru_cache s)) as [cache removed].
  intros H. apply drain_removed_shape in H. rewrite H. reflexivity.
Qed.

Lemma ensure_shape s k s' : ensure s k = Some s' -> shape s' = shape s.
Proof.
  unfold ensure. destruct (LRUCache.exist k (lru_cache s)).
  - intros H. injection H as <-. reflexivity.
  - apply load_block_shape.
Qed.

(** X10: the accessors do not compare their coordinates with the raster
    bounds.  For a column [x] with [- block_xsize < x < 0] the truncating
    division gives block column 0 and the mask [x & block_xmod] gives
    [x + block_xsize]: [get(x, y)] and [set(x, y, v)] do exactly what they do
    at column [x + block_xsize] of the first block column. *)
Theorem negative_column_aliases (s : MR) (x y : Z) (v : double) :
  geometry_ok s -> - block_xsize s < x < 0 ->
  ManagedRaster.get s x y = ManagedRaster.get s (x + block_xsize s) y
  /\ ManagedRaster.set s x y v = ManagedRaster.set s (x + block_xsize s) y v.
Proof.
  intros G Hx. pose proof (xsize_pos s G) as Hbs.
  assert (cdiv x (block_xsize s) = Some 0) as Hdiv.
  { unfold cdiv. destruct (Z.eqb_spec (block_xsize s) 0); [lia |]. f_equal.
    rewrite <- (Z.opp_involutive x), Z.quot_opp_l by lia.
    rewrite Z.quot_small by lia. reflexivity. }
  assert (cdiv (x + block_xsize s) (block_xsize s) = Some 0) as Hdiv'.
  { unfold cdiv. destruct (Z.eqb_spec (block_xsize s) 0); [lia |]. f_equal.
    apply Z.quot_small. lia. }
  assert (forall s1, shape s1 = shape s ->
            Z.land x (block_xmod s1) = Z.land (x + block_xsize s) (block_xmod s1)) as Hland.
  { intros s1 Hs. unfold shape in Hs. injection Hs as _ _ _ -> _ _ _ _ _ _ _ _ _.
    rewrite (g_xmod s G), (g_xsize s G), Z.sub_1_r, <- Z.ones_equiv.
    rewrite !Z.land_ones by apply G.
    rewrite <- (Z.mul_1_l (2 ^ block_xbits s)) at 2.
    rewrite Z.mod_add; [reflexivity |].
    rewrite <- (g_xsize s G). lia. }
  unfold ManagedRaster.get, ManagedRaster.set. rewrite Hdiv, Hdiv'.
  destruct (closed s); [split; reflexivity |].
  change (Some 0 ≫= as_int) with (Some 0).
  destruct (cdiv y (block_ysize s) ≫= as_int) as [by_|]; [| split; reflexivity].
  cbn [mbind option_bind].
  destruct (as_int (by_ * block_nx s)) as [rows|]; [| split; reflexivity].
  cbn [mbind option_bind].
  destruct (as_int (rows + 0)) as [k|]; [| split; reflexivity].
  cbn [mbind option_bind].
  change (if LRUCache.exist ?k (lru_cache s) then Some s
          else ManagedRaster._load_block s ?k) with (ensure s k).
  destruct (ensure s k) as [s1|] eqn:He; [| split; reflexivity].
  cbn [mbind option_bind].
  rewrite (Hland s1 (ensure_shape _ _ _ He)).
  split; reflexivity.
Qed.

Lemma negative_column_aliases_witness :
  exists s, open_grid 2 2 flow_grid true = Constructed s
    /\ ManagedRaster.get s (-1) 1 = ManagedRaster.get s (-1 + block_xsize s) 1
    /\ ManagedRaster.set s (-1) 1 (double_of_int 7)
       = ManagedRaster.set s (-1 + block_xsize s) 1 (double_of_int 7).
Proof.
  eexists. split; [reflexivity |].
  apply negative_column_aliases.
  - eapply (new_spec (one_file (grid_file 2 2 flow_grid)) "flow.tif" 1 true);
      [reflexivity | vm_compute; reflexivity ..].
  - vm_compute. split; reflexivity.
Defined.

(** ** Closing twice *)

Lemma close_entries_keeps_closed entries : forall s s',
  ManagedRaster.close_entries s entries = Some s' -> closed s' = closed s.
Proof.
  induction entries as [|[k b] entries IH]; intros s s' H;
    cbn [ManagedRaster.close_entries] in H.
  - injection H as <-. reflexivity.
  - destruct (bool_decide (k ∈ dirty_blocks s)); cbn [mbind option_bind] in H;
      [| apply IH, H].
    unfold ManagedRaster.write_block in H.
    destruct (ManagedRaster.block_window _ k) as [[[[xoff yoff] wx] wy]|];
      [| discriminate].
    cbn [mbind option_bind] in H. apply IH in H. rewrite H. reflexivity.
Qed.

(** X11: [close] latches: whatever raster it is called on, if it returns,
    [closed] is set, in both modes, and a second [close] returns at once and
    changes nothing, so no block is written or released twice. *)
Theorem close_twice (s s1 : MR) :
  ManagedRaster.close s = Some s1 ->
  closed s1 = true /\ ManagedRaster.close s1 = Some s1.
Proof.
  intros Hc.
  assert (closed s1 = true) as Hcl.
  { unfold ManagedRaster.close in Hc. destruct (closed s) eqn:Hs.
    - injection Hc as <-. exact Hs.
    - change (write_mode (ManagedRaster.with_closed true s)) with (write_mode s) in Hc.
      destruct (write_mode s); cbn [negb] in Hc.
      + destruct (ManagedRaster.close_entries _ _) as [s2|] eqn:He; [| discriminate].
        cbn [mbind option_bind] in Hc. injection Hc as <-.
        apply close_entries_keeps_closed in He. exact He.
      + injection Hc as <-. reflexivity. }
  split; [exact Hcl |]. unfold ManagedRaster.close. rewrite Hcl. reflexivity.
Qed.

Lemma close_twice_witness :
  exists s s1, open_grid 2 2 flow_grid true = Constructed s
    /\ ManagedRaster.close s = Some s1
    /\ closed s1 = true /\ ManagedRaster.close s1 = Some s1.
Proof.
  destruct (new_spec (one_file (grid_file 2 2 flow_grid)) "flow.tif" 1 true _ eq_refl)
    as (W & _); [vm_compute; reflexivity ..|].
  match type of W with wf ?s0 =>
    destruct (close_defined s0 W) as (s1 & Hc & _);
    exists s0, s1; split; [reflexivity |]; split; [exact Hc |];
    apply (close_twice s0 s1 Hc)
  end.
Defined.

(** ** The direction tables *)

(** X12: for every direction [d] in 0..7 the tables [INFLOW_OFFSETS] and
    [FLOW_DIR_REVERSE_DIRECTION] agree and hold the opposite direction
    [(d + 4) mod 8]; reversing twice gives [d] back; the offsets of the
    opposite direction are the negated offsets of [d], so the neighbor's
    neighbor in the opposite direction is the pixel itself; the offset of
    [d] is one step to a different cell, and no other direction has it. *)
Theorem opposite_direction_tables (d : Z) :
  0 <= d <= 7 ->
  exists r dx dy,
    at_index FLOW_DIR_REVERSE_DIRECTION d = Some r
    /\ at_index INFLOW_OFFSETS d = Some r
    /\ r = (d + 4) `mod` 8
    /\ at_index FLOW_DIR_REVERSE_DIRECTION r = Some d
    /\ at_index COL_OFFSETS d = Some dx /\ at_index ROW_OFFSETS d = Some dy
    /\ at_index COL_OFFSETS r = Some (- dx) /\ at_index ROW_OFFSETS r = Some (- dy)
    /\ -1 <= dx <= 1 /\ -1 <= dy <= 1 /\ (dx, dy) <> (0, 0)
    /\ forall d', 0 <= d' <= 7 ->
         at_index COL_OFFSETS d' = Some dx -> at_index ROW_OFFSETS d' = Some dy -> d' = d.
Proof.
  intros Hd.
  assert (d = 0 \/ d = 1 \/ d = 2 \/ d = 3 \/ d = 4 \/ d = 5 \/ d = 6 \/ d = 7) as Hc by lia.
  repeat (destruct Hc as [-> | Hc]); [.. | subst d];
    (eexists _, _, _; do 8 (split; [reflexivity |]);
     split; [lia |]; split; [lia |]; split; [discriminate |];
     intros d' Hd';
     assert (d' = 0 \/ d' = 1 \/ d' = 2 \/ d' = 3 \/ d' = 4 \/ d' = 5 \/ d' = 6 \/ d' = 7)
       as Hc' by lia;
     repeat (destruct Hc' as [-> | Hc']); [.. | subst d'];
     first [reflexivity | intros; discriminate]).
Qed.

Lemma opposite_direction_tables_witness :
  exists r dx dy,
    at_index FLOW_DIR_REVERSE_DIRECTION 3 = Some r
    /\ at_index INFLOW_OFFSETS 3 = Some r
    /\ r = (3 + 4) `mod` 8
    /\ at_index COL_OFFSETS 3 = Some dx /\ at_index ROW_OFFSETS 3 = Some dy
    /\ at_index COL_OFFSETS r = Some (- dx) /\ at_index ROW_OFFSETS r = Some (- dy).
Proof.
  destruct (opposite_direction_tables 3)
    as (r & dx & dy & H1 & H2 & H3 & _ & H5 & H6 & H7 & H8 & _); [lia |].
  exists r, dx, dy. auto 10.
Defined.

(** ** The base iterator *)

Lemma base_next_end it :
  i it = 8 -> NeighborIterator.next it = Some (NeighborIterator.point_to to_endVal it).
Proof. intros Hi. unfold NeighborIterator.next. rewrite Hi. reflexivity. Qed.

Lemma base_next_step it d :
  i it = d -> 0 <= d <= 7 ->
  NeighborIterator.next it
  = Some (NeighborIterator.advance (NeighborIterator.point_to
            (to_new (neighbor_tuple (Pixel.x (pixel it)) (Pixel.y (pixel it))
                       (Pixel.val (pixel it)) d)) it)).
Proof.
  intros Hi Hd. unfold NeighborIterator.next. rewrite Hi.
  destruct (Z.eqb_spec d 8); [lia |].
  destruct (direction_tables d Hd) as (-> & -> & _). cbn [mbind option_bind].
  rewrite nibble_alt'. reflexivity.
Qed.

Lemma base_run x y val : forall (k steps : nat) it,
  (k <= 8)%nat -> (k <= steps)%nat ->
  i it = 8 - Z.of_nat k ->
  Pixel.x (pixel it) = x -> Pixel.y (pixel it) = y -> Pixel.val (pixel it) = val ->
  (NeighborIterator.next it ≫= drain NeighborIterator.next steps)
  = Some (neighbor_tuple x y val <$> seqZ (8 - Z.of_nat k) (Z.of_nat k),
          {| pixel := pixel it; m_ptr := to_endVal; i := 8 |}).
Proof.
  induction k as [|k IH]; intros steps it Hk8 Hsteps Hi Hx Hy Hval.
  - rewrite (base_next_end it) by (rewrite Hi; reflexivity). cbn [mbind option_bind].
    rewrite drain_end by reflexivity.
    unfold NeighborIterator.point_to. rewrite Hi. reflexivity.
  - rewrite (base_next_step it (8 - Z.of_nat (S k)) Hi) by lia.
    rewrite seqZ_directions, fmap_cons, Hx, Hy, Hval.
    cbn [mbind option_bind].
    destruct steps as [|steps]; [lia |].
    erewrite drain_new by reflexivity.
    match goal with
    | |- context [NeighborIterator.next ?it1 ≫= _] =>
        assert (NeighborIterator.next it1 ≫= drain NeighborIterator.next steps = _) as Hrun
          by (apply (IH steps it1);
              [lia | lia | cbn; lia | exact Hx | exact Hy | exact Hval]);
        destruct (NeighborIterator.next it1) as [it2|]; [| discriminate]
    end.
    cbn [mbind option_bind] in Hrun |- *. rewrite Hrun. reflexivity.
Qed.

(** X13: the range of the base class [Neighbors] yields, for every pixel,
    all eight directions in increasing order, each with the neighbor's
    coordinates (whether or not they lie in the raster) and nibble [d] of the
    pixel's value as proportion (whether or not it is zero), and then reaches
    the end; a further step at the end stays at the end. *)
Theorem Neighbors_yields_all_eight (p : Pixel.t) :
  exists fin,
    Neighbors p
    = Some (neighbor_tuple (Pixel.x p) (Pixel.y p) (Pixel.val p) <$> seqZ 0 8, fin)
    /\ NeighborIterator.at_end fin = true
    /\ NeighborIterator.next fin = Some fin.
Proof.
  exists {| pixel := p; m_ptr := to_endVal; i := 8 |}.
  split; [| split; reflexivity].
  apply (base_run (Pixel.x p) (Pixel.y p) (Pixel.val p) 8 8 (NeighborIterator.init p));
    [lia | lia | reflexivity ..].
Qed.

(** ** Multi-scheme downslope ranges *)

Lemma noskip_run x y val : forall (k n steps : nat) it,
  (k <= 8)%nat -> (k < n)%nat -> (k <= steps)%nat ->
  i it = 8 - Z.of_nat k -> m_ptr it <> to_endVal ->
  Pixel.x (pixel it) = x -> Pixel.y (pixel it) = y -> Pixel.val (pixel it) = val ->
  exists fin,
    (DownslopeNeighborNoSkipIterator.next_MFD n it
     ≫= drain (DownslopeNeighborNoSkipIterator.next MFD) steps)
    = Some (noskip_expected x y val (seqZ (8 - Z.of_nat k) (Z.of_nat k)), fin).
Proof.
  induction k as [|k IH]; intros n steps it Hk8 Hn Hsteps Hi Hptr Hx Hy Hval;
    (destruct n as [|n]; [lia |]); cbn [DownslopeNeighborNoSkipIterator.next_MFD];
    rewrite (delete_m_ptr_ok it Hptr); cbn [mbind option_bind NeighborIterator.i];
    rewrite Hi.
  - change (8 - Z.of_nat 0 =? 8) with true. cbn [mbind option_bind].
    rewrite drain_end by reflexivity. eexists. reflexivity.
  - assert (0 <= 8 - Z.of_nat (S k) <= 7) as Hd by lia.
    destruct (Z.eqb_spec (8 - Z.of_nat (S k)) 8); [lia |].
    destruct (direction_tables _ Hd) as (Hcol & Hrow & _).
    unfold noskip_expected. rewrite seqZ_directions, filter_cons.
    set (d := 8 - Z.of_nat (S k)) in *.
    rewrite Hcol, Hrow. cbn [mbind option_bind NeighborIterator.pixel].
    rewrite Hx, Hy, Hval, nibble_alt'.
    set (it0 := {| pixel := pixel it; m_ptr := nullptr; i := d |}).
    destruct (Z.eqb_spec (nibble val d) 0) as [Hz|Hnz]; cbn [negb].
    + rewrite decide_False by (intros H; apply H, Hz).
      apply (IH n steps (NeighborIterator.advance it0));
        [lia | lia | lia | cbn; lia | discriminate | exact Hx | exact Hy | exact Hval].
    + rewrite decide_True by exact Hnz. rewrite fmap_cons.
      cbn [mbind option_bind].
      destruct steps as [|steps]; [lia |].
      erewrite drain_new by reflexivity.
      match goal with
      | |- context [DownslopeNeighborNoSkipIterator.next MFD ?it1] =>
          destruct (IH 9%nat steps it1) as (fin & Hrun);
            [lia | lia | lia | cbn; lia | discriminate | exact Hx | exact Hy
            | exact Hval |];
          change (DownslopeNeighborNoSkipIterator.next MFD it1)
            with (DownslopeNeighborNoSkipIterator.next_MFD 9 it1);
          destruct (DownslopeNeighborNoSkipIterator.next_MFD 9 it1) as [it2|];
            [| discriminate]
      end.
      cbn [mbind option_bind] in Hrun |- *. rewrite Hrun. cbn [mbind option_bind].
      exists fin. reflexivity.
Qed.

(** Downslope yields the tuples of Downslope-no-skip that lie in the raster. *)
Lemma downslope_expected_filter s x y val dirs :
  downslope_expected s x y val dirs
  = filter (fun t => outside s (NeighborTuple.x t) (NeighborTuple.y t) = false)
           (noskip_expected x y val dirs).
Proof.
  unfold noskip_expected.
  induction dirs as [|d dirs IH]; [reflexivity |].
  cbn [downslope_expected]. rewrite filter_cons, IH. unfold flows_out.
  destruct (Z.eqb_spec (nibble val d) 0) as [Hz|Hnz]; cbn [negb].
  - rewrite andb_false_r, decide_False by (intros H; apply H, Hz). reflexivity.
  - rewrite andb_true_r, decide_True by exact Hnz.
    rewrite fmap_cons, filter_cons.
    cbn [neighbor_tuple NeighborTuple.new NeighborTuple.x NeighborTuple.y].
    destruct (outside s (x + col_offset d) (y + row_offset d)); cbn [negb].
    + rewrite decide_False by discriminate. reflexivity.
    + rewrite decide_True by reflexivity. reflexivity.
Qed.

Lemma directions_downslope_expected s x y val dirs :
  sublist (NeighborTuple.direction <$> downslope_expected s x y val dirs) dirs.
Proof.
  induction dirs as [|d dirs IH]; cbn [downslope_expected]; [constructor |].
  destruct (flows_out s x y val d).
  - rewrite fmap_cons. apply sublist_skip, IH.
  - apply sublist_cons, IH.
Qed.

(** X14: for the multi scheme the Downslope range of any pixel is defined;
    it yields a tuple for exactly those directions [d] in 0..7 whose neighbor
    is a cell of the raster and whose nibble [d] of the pixel's value is not
    zero, with the neighbor's coordinates and that nibble as proportion, in
    increasing order of direction, each at most once. *)
Theorem downslope_MFD_range (p : Pixel.t) :
  let x := Pixel.x p in
  let y := Pixel.y p in
  let val := Pixel.val p in
  exists l fin,
    DownslopeNeighbors MFD p = Some (l, fin)
    /\ (forall t, t ∈ l <->
          exists d, 0 <= d <= 7
            /\ in_bounds (Pixel.raster p) (x + col_offset d) (y + row_offset d)
            /\ nibble val d <> 0
            /\ t = NeighborTuple.new d (x + col_offset d) (y + row_offset d)
                     (nibble val d))
    /\ sublist (NeighborTuple.direction <$> l) (seqZ 0 8).
Proof.
  cbv zeta.
  destruct (DownslopeNeighbors_spec (Pixel.raster p) p eq_refl) as (fin & Hd).
  eexists _, fin. split; [exact Hd |]. split; [| apply directions_downslope_expected].
  intros t. rewrite elem_downslope_expected. split.
  - intros (d & Hin & Hf & ->). apply elem_of_seqZ in Hin. exists d.
    unfold flows_out in Hf. apply andb_true_iff in Hf as [Hb Hnz].
    apply negb_true_iff, outside_false in Hb. apply negb_true_iff, Z.eqb_neq in Hnz.
    split; [lia |]. split; [exact Hb |]. split; [exact Hnz | reflexivity].
  - intros (d & Hd7 & Hb & Hnz & ->). exists d. split; [apply elem_of_seqZ; lia |].
    split; [| reflexivity]. unfold flows_out.
    rewrite (proj2 (outside_false _ _ _) Hb). cbn [negb andb].
    apply negb_true_iff, Z.eqb_neq, Hnz.
Qed.

(** X15: for the multi scheme the Downslope-no-skip range of any pixel is
    defined; it yields a tuple for exactly the directions whose nibble is not
    zero, without any test against the raster bounds, so a tuple may name
    coordinates outside the raster; the Downslope range of the pixel is the
    no-skip range with those tuples left out. *)
Theorem noskip_MFD_range (p : Pixel.t) :
  let x := Pixel.x p in
  let y := Pixel.y p in
  let val := Pixel.val p in
  exists l l' fin fin',
    DownslopeNeighborsNoSkip MFD p = Some (l', fin')
    /\ DownslopeNeighbors MFD p = Some (l, fin)
    /\ (forall t, t ∈ l' <->
          exists d, 0 <= d <= 7 /\ nibble val d <> 0
            /\ t = NeighborTuple.new d (x + col_offset d) (y + row_offset d)
                     (nibble val d))
    /\ l = filter (fun t => outside (Pixel.raster p) (NeighborTuple.x t)
                              (NeighborTuple.y t) = false) l'.
Proof.
  cbv zeta.
  destruct (DownslopeNeighbors_spec (Pixel.raster p) p eq_refl) as (fin & Hd).
  destruct (noskip_run (Pixel.x p) (Pixel.y p) (Pixel.val p) 8 9 8
              (NeighborIterator.init p)) as (fin' & Hn);
    [lia | lia | lia | reflexivity | discriminate | reflexivity ..|].
  eexists _, _, fin, fin'. split; [exact Hn |]. split; [exact Hd |].
  split; [| apply downslope_expected_filter].
  intros t. unfold noskip_expected. rewrite list_elem_of_fmap. split.
  - intros (d & -> & Hin). apply list_elem_of_filter in Hin as [Hnz Hin].
    apply elem_of_seqZ in Hin. exists d. split; [lia |]. split; [exact Hnz | reflexivity].
  - intros (d & Hd7 & Hnz & ->). exists d. split; [reflexivity |].
    apply list_elem_of_filter. split; [exact Hnz | apply elem_of_seqZ; lia].
Qed.

(** ** Single-scheme rasters *)













(** The single-scheme upslope range around the centre of [d8_grid]: the
    east neighbor holds 4 and the west neighbor 0, both point at the centre. *)
Example upslope_D8_scenario :
  (s ← constructed (open_grid 2 2 d8_grid false);
   p ← Pixel.new s 1 1;
   r ← UpslopeNeighbors_D8 p;
   Some (summary r.1))
  = Some [(0, 2, 1, float_of_int 1); (4, 0, 1, float_of_int 1)].
Proof. vm_compute. reflexivity. Qed.

(** ** High points and upslope ranges *)









(** ** Single-scheme downslope ranges *)



(** X20: for the single scheme and a pixel whose value is a direction in
    0..7, the Downslope range yields the neighbor in that direction with
    proportion 1 and nothing else when the neighbor is a cell of the raster,
    and nothing at all otherwise; the Downslope-no-skip range yields that
    neighbor wherever it lies.  After the one tuple the next step reaches
    the end. *)
Theorem downslope_D8_range (p : Pixel.t) :
  let val := Pixel.val p in
  let xj := Pixel.x p + col_offset val in
  let yj := Pixel.y p + row_offset val in
  0 <= val <= 7 ->
  exists fin fin',
    DownslopeNeighbors D8 p
    = Some (if outside (Pixel.raster p) xj yj then []
            else [NeighborTuple.new val xj yj 1], fin)
    /\ DownslopeNeighborsNoSkip D8 p = Some ([NeighborTuple.new val xj yj 1], fin')
    /\ NeighborIterator.at_end fin = true /\ NeighborIterator.at_end fin' = true.
Proof.
  cbv zeta. intros Hv. destruct (direction_tables _ Hv) as (Hcol & Hrow & _).
  unfold DownslopeNeighbors, DownslopeNeighborsNoSkip,
    DownslopeNeighborIterator.new, DownslopeNeighborNoSkipIterator.new,
    DownslopeNeighborIterator.next, DownslopeNeighborNoSkipIterator.next,
    DownslopeNeighborIterator.next_D8, DownslopeNeighborNoSkipIterator.next_D8.
  cbn [NeighborIterator.delete_m_ptr NeighborIterator.init m_ptr pixel i
       mbind option_bind Z.eqb].
  rewrite Hcol, Hrow. cbn [mbind option_bind].
  destruct (outside (Pixel.raster p) _ _).
  - exists {| pixel := p; m_ptr := to_endVal; i := 0 |},
           {| pixel := p; m_ptr := to_endVal; i := 8 |}.
    repeat split; reflexivity.
  - exists {| pixel := p; m_ptr := to_endVal; i := 8 |},
           {| pixel := p; m_ptr := to_endVal; i := 8 |}.
    repeat split; reflexivity.
Qed.

Lemma downslope_D8_range_witness :
  exists s p, constructed (open_grid 2 2 d8_grid false) = Some s
    /\ Pixel.new s 2 1 = Some p
    /\ exists fin fin',
         DownslopeNeighbors D8 p
         = Some (if outside (Pixel.raster p) (Pixel.x p + col_offset (Pixel.val p))
                      (Pixel.y p + row_offset (Pixel.val p))
                 then []
                 else [NeighborTuple.new (Pixel.val p)
                         (Pixel.x p + col_offset (Pixel.val p))
                         (Pixel.y p + row_offset (Pixel.val p)) 1], fin)
         /\ DownslopeNeighborsNoSkip D8 p
            = Some ([NeighborTuple.new (Pixel.val p)
                       (Pixel.x p + col_offset (Pixel.val p))
                       (Pixel.y p + row_offset (Pixel.val p)) 1], fin')
         /\ NeighborIterator.at_end fin = true /\ NeighborIterator.at_end fin' = true.
Proof.
  destruct d8_raster_good as (s & Hs & G & He & _).
  assert (pixel_int s 2 1 = Some 4) as H21.
  { apply (f_equal (fun o => o ≫= fun s => pixel_int s 2 1)) in Hs.
    cbn [mbind option_bind] in Hs. rewrite <- Hs. vm_compute. reflexivity. }
  destruct (Pixel_new_spec s 2 1 G) as (p & n & Hp & Hn & Hval & _).
  { apply in_bounds_3x3; [exact He | lia | lia]. }
  exists s, p. split; [exact Hs |]. split; [exact Hp |].
  apply (downslope_D8_range p). rewrite Hval. assert (n = 4) as -> by congruence. lia.
Defined.



(** ** The size of upslope proportions *)




(** ** Dirty marks *)



(** ** Duality, from upslope to downslope *)





(** ** The cache is transparent *)




(** ** The multi-scheme upslope ranges, exactly *)




(** ** Pixel descriptors *)



(** ** The contract of a load *)


